(** * jsonrpc/websocket.go: the websocket stream adapter and its connection loop

    A shallow embedding of [websocketConn.Read], [websocketConn.Write],
    [Websocket.ServeHTTP] and the connection parameters, followed by the
    properties of the adapter and of the connection lifecycle.

    The websocket library (nhooyr.io/websocket), the logger, the request
    listener and the rpc server are collaborators of the file.  Their
    behaviour is data of the model: the transport is scripted by the results
    its calls will give, and every call made on a collaborator is appended to
    a history, so that statements about what the code does to the outside
    are statements about that history. *)

From Stdlib Require Import List Arith ZArith Lia Bool String Ascii.
From Stdlib Require Import Strings.Byte.
Import ListNotations.

(** ** Go values *)

(** The content of a [[]byte]. *)
Definition bytes := list byte.

(** A [[]byte] value: [nil], or a slice with its content.  The difference is
    visible to the code, which tests [wsc.buf == nil]. *)
Definition slice := option bytes.

Definition content (s : slice) : bytes :=
  match s with
  | None => []
  | Some b => b
  end.

(** [len(s)] *)
Definition len (s : slice) : nat := List.length (content s).

(** [s[:n]] and [s[n:]], for [n <= len(s)]; slicing keeps [nil] nil and a
    non-nil slice non-nil. *)
Definition slice_to (s : slice) (n : nat) : slice := option_map (firstn n) s.
Definition slice_from (s : slice) (n : nat) : slice := option_map (skipn n) s.

(** [copy(dst, src)]: the number of bytes copied and the new content of
    [dst]. *)
Definition copy (dst src : bytes) : nat * bytes :=
  let n := Nat.min (List.length dst) (List.length src) in
  (n, firstn n src ++ skipn n dst).

(** A Go [error], as far as this file observes one: through [err.Error()],
    and through [errors.As(err, &websocket.CloseError{})], which finds the
    close error in the chain of [err] if there is one, together with its
    status code ([websocket.CloseStatus]). *)
Record error := mkError {
  Error : string;
  closeError : option Z
}.

(** [websocket.CloseStatus(err)]: the code of the close error, or -1. *)
Definition CloseStatus (err : error) : Z :=
  match closeError err with
  | Some code => code
  | None => (-1)%Z
  end.

Definition StatusNormalClosure : Z := 1000.
Definition StatusInternalError : Z := 1011.

Inductive MessageType := MessageText | MessageBinary.

Inductive level := DebugLevel | InfoLevel | WarnLevel | ErrorLevel.

(** The value logged next to a key. *)
Inductive logval :=
| LogErr (e : error)
| LogStatus (code : Z).

(** ** The history of a connection *)

(** The calls made on the collaborators, with their results. *)
Inductive event :=
| EvAccept (err : option error)
| EvSetReadLimit (n : Z)
| EvConnRead (m : slice) (err : option error)
| EvConnWrite (timeout : Z) (typ : MessageType) (p : bytes) (err : option error)
| EvConnClose (code : Z) (reason : string) (err : option error)
| EvHandleReader
| EvHandleReaderRet (resp : bytes) (err : option error)
| EvRead (plen : nat)
| EvOnNewRequest (label : string)
| EvLog (l : level) (msg key : string) (v : logval).

(** ** The state of one connection *)

(** The script of the transport, the one mutable field of the adapter
    ([wsc.buf]) and the history.  [inbox] gives the results of the next calls
    of [conn.Read]; when it is used up the connection is dead and every
    further [conn.Read] fails with [inbox_end].  [outbox_res] gives the
    results of the next calls of [conn.Write], and [outbox_end] the result of
    every call after those.  [close_res] is the result of [conn.Close]. *)
Record State := mkState {
  accept_res : option error;
  inbox : list (slice * option error);
  inbox_end : error;
  outbox_res : list (option error);
  outbox_end : option error;
  close_res : option error;
  buf : slice;
  history : list event
}.

Definition set_buf (b : slice) (s : State) : State :=
  mkState (accept_res s) (inbox s) (inbox_end s) (outbox_res s) (outbox_end s)
          (close_res s) b (history s).

Definition set_inbox (i : list (slice * option error)) (s : State) : State :=
  mkState (accept_res s) i (inbox_end s) (outbox_res s) (outbox_end s)
          (close_res s) (buf s) (history s).

Definition set_outbox_res (o : list (option error)) (s : State) : State :=
  mkState (accept_res s) (inbox s) (inbox_end s) o (outbox_end s)
          (close_res s) (buf s) (history s).

Definition record (e : event) (s : State) : State :=
  mkState (accept_res s) (inbox s) (inbox_end s) (outbox_res s) (outbox_end s)
          (close_res s) (buf s) (history s ++ [e]).

(** A connection before its first call: nothing buffered, nothing done. *)
Definition fresh (acc : option error) (i : list (slice * option error))
    (iend : error) (o : list (option error)) (oend cl : option error) : State :=
  mkState acc i iend o oend cl None [].

(** ** A state monad for the code of the connection *)

Definition M (A : Type) : Type := State -> A * State.

Definition ret {A} (a : A) : M A := fun s => (a, s).

Definition bind {A B} (c : M A) (k : A -> M B) : M B :=
  fun s => let (a, s') := c s in k a s'.

Definition get {A} (f : State -> A) : M A := fun s => (f s, s).

Definition modify (f : State -> State) : M unit := fun s => (tt, f s).

Declare Scope go_scope.
Delimit Scope go_scope with go.
Notation "x <- c ;; k" := (bind c (fun x => k))
  (at level 61, c at next level, right associativity) : go_scope.
Notation "' pat <- c ;; k" := (bind c (fun x => match x with pat => k end))
  (at level 61, pat pattern, c at next level, right associativity) : go_scope.
Notation "c ;;; k" := (bind c (fun _ => k))
  (at level 61, right associativity) : go_scope.
Open Scope go_scope.

(** ** The transport *)

(** [conn.Read(ctx)]: the next whole message, or an error. *)
Definition conn_Read : M (slice * option error) :=
  i <- get inbox ;;
  match i with
  | r :: rest =>
      modify (set_inbox rest) ;;;
      modify (record (EvConnRead (fst r) (snd r))) ;;;
      ret r
  | [] =>
      e <- get inbox_end ;;
      modify (record (EvConnRead None (Some e))) ;;;
      ret (None, Some e)
  end.

(** [conn.Write(ctx, typ, p)] under a context that expires after
    [timeout]. *)
Definition conn_Write (timeout : Z) (typ : MessageType) (p : bytes)
    : M (option error) :=
  o <- get outbox_res ;;
  match o with
  | r :: rest =>
      modify (set_outbox_res rest) ;;;
      modify (record (EvConnWrite timeout typ p r)) ;;;
      ret r
  | [] =>
      r <- get outbox_end ;;
      modify (record (EvConnWrite timeout typ p r)) ;;;
      ret r
  end.

(** [conn.Close(code, reason)] *)
Definition conn_Close (code : Z) (reason : string) : M (option error) :=
  r <- get close_res ;;
  modify (record (EvConnClose code reason r)) ;;;
  ret r.

(** ** Connection parameters *)

Record WebsocketConnParams := mkParams {
  ReadLimit : Z;      (* int64, bytes *)
  WriteDuration : Z   (* time.Duration: int64, nanoseconds *)
}.

Definition Second : Z := 1000000000.

Definition DefaultWebsocketConnParams : WebsocketConnParams :=
  mkParams (32 * 1024 * 1024) (5 * Second).

(** ** The stream adapter *)

(** The immutable fields of [websocketConn] that the code reads; [conn],
    [ctx] and [listener] are handles on the collaborators, and [buf] is in
    the [State]. *)
Record websocketConn := mkConn {
  params : WebsocketConnParams
}.

(** [wsc.Read(p)]: the count, the error and the new content of [p]. *)
Definition Read (p : bytes) : M (nat * option error * bytes) :=
  b <- get buf ;;
  err <- match b with
         | None =>
             r <- conn_Read ;;
             modify (set_buf (fst r)) ;;;
             ret (snd r)
         | Some _ => ret None
         end ;;
  b <- get buf ;;
  match err with
  | Some e => ret (len b, Some e, p)
  | None =>
      if List.length p <? len b then
        let (n, p') := copy p (content (slice_to b (List.length p))) in
        modify (set_buf (slice_from b (List.length p))) ;;;
        ret (n, None, p')
      else
        let (n, p') := copy p (content b) in
        modify (set_buf None) ;;;
        ret (n, None, p')
  end.

(** [wsc.Write(p)] *)
Definition Write (wsc : websocketConn) (p : bytes) : M (nat * option error) :=
  err <- conn_Write (WriteDuration (params wsc)) MessageText p ;;
  match err with
  | Some e => ret (0, Some e)
  | None => ret (List.length p, None)
  end.

(** ** The rpc server *)

(** [Server.HandleReader] is not part of this file: it is a parameter of the
    model.  It is given the adapter as an [io.Reader], so one call of it is a
    program that calls [Read] some number of times, each time on a buffer of
    its choice, and then returns a response and an error. *)
Inductive handler :=
| Return (resp : bytes) (err : option error)
| CallRead (p : bytes) (k : nat -> option error -> bytes -> handler).

(** The server: what [HandleReader] does the n-th time it is called on the
    connection. *)
Definition Server := nat -> handler.

Fixpoint runHandler (h : handler) : M (bytes * option error) :=
  match h with
  | Return resp err => ret (resp, err)
  | CallRead p k =>
      modify (record (EvRead (List.length p))) ;;;
      '(n, err, p') <- Read p ;;
      runHandler (k n err p')
  end.

(** [ws.rpc.HandleReader(ctx, wsc)], the [cycle]-th call. *)
Definition HandleReader (rpc : Server) (cycle : nat) : M (bytes * option error) :=
  modify (record EvHandleReader) ;;;
  r <- runHandler (rpc cycle) ;;
  modify (record (EvHandleReaderRet (fst r) (snd r))) ;;;
  ret r.

(** ** The logger and the listener *)

Definition logw (l : level) (msg key : string) (v : logval) : M unit :=
  modify (record (EvLog l msg key v)).

Definition OnNewRequest (label : string) : M unit :=
  modify (record (EvOnNewRequest label)).

(** ** The connection lifecycle *)

Record Websocket := mkWebsocket {
  rpc : Server;
  connParams : option WebsocketConnParams   (* a pointer: [None] is nil *)
}.

Definition NewWebsocket (rpc : Server) : Websocket :=
  mkWebsocket rpc (Some DefaultWebsocketConnParams).

Definition WithConnParams (ws : Websocket) (p : option WebsocketConnParams)
    : Websocket :=
  mkWebsocket (rpc ws) p.

(** [websocket.Accept(w, r, nil)] *)
Definition Accept : M (option error) :=
  r <- get accept_res ;;
  modify (record (EvAccept r)) ;;;
  ret r.

(** [newWebsocketConn]; dereferencing a nil [params] panics ([None]). *)
Definition newWebsocketConn (p : option WebsocketConnParams)
    : M (option websocketConn) :=
  match p with
  | None => ret None
  | Some prm =>
      modify (record (EvSetReadLimit (ReadLimit prm))) ;;;
      ret (Some (mkConn prm))
  end.

(** The [for] loop of [ServeHTTP].  It runs until a cycle fails, which may be
    never: [fuel] bounds the number of cycles, and [None] says that the loop
    is still running when the fuel is used up. *)
Fixpoint serveLoop (fuel : nat) (rpc : Server) (cycle : nat)
    (wsc : websocketConn) : M (option error) :=
  match fuel with
  | O => ret None
  | S fuel' =>
      '(resp, err) <- HandleReader rpc cycle ;;
      match err with
      | Some e => ret (Some e)
      | None =>
          OnNewRequest "any" ;;;
          '(_, err) <- Write wsc resp ;;
          match err with
          | Some e => ret (Some e)
          | None => serveLoop fuel' rpc (S cycle) wsc
          end
      end
  end.

Definition closeReasonMaxBytes : nat := 125.

(** [strings.Contains(s, substr)] *)
Fixpoint Contains (s substr : string) : bool :=
  if prefix substr s then true
  else match s with
       | EmptyString => false
       | String _ s' => Contains s' substr
       end.

(** The reason sent with the close frame:
    [if len(errString) > closeReasonMaxBytes { errString = errString[:closeReasonMaxBytes] }] *)
Definition closeReason (errString : string) : string :=
  if closeReasonMaxBytes <? String.length errString
  then substring 0 closeReasonMaxBytes errString
  else errString.

(** [ServeHTTP] after its loop: the error that ended the loop is classified
    and the connection is closed. *)
Definition finish (err : error) : M unit :=
  match closeError err with
  | Some _ =>
      logw InfoLevel "Client closed websocket connection" "status"
           (LogStatus (CloseStatus err))
  | None =>
      logw WarnLevel "Closing websocket connection due to internal error" "err"
           (LogErr err) ;;;
      cerr <- conn_Close StatusInternalError (closeReason (Error err)) ;;
      match cerr with
      | Some e =>
          if negb (Contains (Error e) "already wrote close")
          then logw ErrorLevel "Failed to close websocket connection" "err" (LogErr e)
          else ret tt
      | None => ret tt
      end
  end.

Inductive outcome := Returned | Panicked | Running.

Definition ServeHTTP (fuel : nat) (ws : Websocket) : M outcome :=
  err <- Accept ;;
  match err with
  | Some e =>
      logw ErrorLevel "Failed to upgrade connection" "err" (LogErr e) ;;;
      ret Returned
  | None =>
      w <- newWebsocketConn (connParams ws) ;;
      match w with
      | None => ret Panicked
      | Some wsc =>
          r <- serveLoop fuel (rpc ws) 0 wsc ;;
          match r with
          | None => ret Running
          | Some e => finish e ;;; ret Returned
          end
      end
  end.

(** ** Reading the history *)

Definition is_fetch (e : event) : bool :=
  match e with EvConnRead _ _ => true | _ => false end.

Definition is_fetched (e : event) : bool :=
  match e with EvConnRead _ None => true | _ => false end.

Definition is_notify (e : event) : bool :=
  match e with EvOnNewRequest _ => true | _ => false end.

Definition is_response (e : event) : bool :=
  match e with EvHandleReaderRet _ None => true | _ => false end.

Definition is_written (e : event) : bool :=
  match e with EvConnWrite _ _ _ None => true | _ => false end.

Definition is_write (e : event) : bool :=
  match e with EvConnWrite _ _ _ _ => true | _ => false end.

Definition is_close (e : event) : bool :=
  match e with EvConnClose _ _ _ => true | _ => false end.

Definition is_error_log (e : event) : bool :=
  match e with EvLog ErrorLevel _ _ _ => true | _ => false end.

(** The events with which a request is read: the server is called, it calls
    [Read], [Read] fetches a message. *)
Definition is_reading (e : event) : bool :=
  match e with
  | EvHandleReader | EvRead _ | EvConnRead _ _ => true
  | _ => false
  end.

(** An event by which a cycle fails. *)
Definition is_failure (e : event) : bool :=
  match e with
  | EvHandleReaderRet _ (Some _) | EvConnWrite _ _ _ (Some _) => true
  | _ => false
  end.

Definition count (f : event -> bool) (h : list event) : nat :=
  List.length (filter f h).

(** The calls of [conn.Read]. *)
Definition fetches (s : State) : nat := count is_fetch (history s).

(** The messages that [conn.Read] has returned. *)
Definition fetched (s : State) : nat := count is_fetched (history s).

(** The calls of the listener. *)
Definition notifications (s : State) : nat := count is_notify (history s).

(** The requests for which the server has returned a response. *)
Definition responses (s : State) : nat := count is_response (history s).

(** The responses that [conn.Write] has sent: the cycles that succeeded. *)
Definition written (s : State) : nat := count is_written (history s).

(** The messages on the wire, in order. *)
Fixpoint sent (h : list event) : list (MessageType * bytes) :=
  match h with
  | [] => []
  | EvConnWrite _ typ p None :: h' => (typ, p) :: sent h'
  | _ :: h' => sent h'
  end.

(** ** Reading a stream of messages *)

(** A caller that calls [Read] once on each buffer of [ps], until an error:
    the bytes each call gave it, and the error. *)
Fixpoint readAll (ps : list bytes) : M (list bytes * option error) :=
  match ps with
  | [] => ret ([], None)
  | p :: ps' =>
      '(n, err, p') <- Read p ;;
      match err with
      | Some e => ret ([firstn n p'], Some e)
      | None =>
          '(chunks, e) <- readAll ps' ;;
          ret (firstn n p' :: chunks, e)
      end
  end.

(** A message that the transport delivers. *)
Definition delivers (m : slice) : slice * option error := (m, None).

(** The bytes still to come: what is buffered, then the messages that are
    not fetched yet. *)
Definition stream (s : State) : bytes :=
  content (buf s) ++ List.concat (map (fun r => content (fst r)) (inbox s)).

(** ** Well-formed UTF-8 *)

Definition continuation (b : nat) : bool := (128 <=? b) && (b <=? 191).

(** The second byte of a sequence of three or four bytes, which excludes the
    overlong forms, the surrogates and the code points above U+10FFFF. *)
Definition second (b0 b1 : nat) : bool :=
  if b0 =? 224 then (160 <=? b1) && (b1 <=? 191)
  else if b0 =? 237 then (128 <=? b1) && (b1 <=? 159)
  else if b0 =? 240 then (144 <=? b1) && (b1 <=? 191)
  else if b0 =? 244 then (128 <=? b1) && (b1 <=? 143)
  else continuation b1.

(** RFC 3629, as [utf8.Valid] decides it. *)
Fixpoint utf8_valid (l : list nat) : bool :=
  match l with
  | [] => true
  | b0 :: t0 =>
      if b0 <? 128 then utf8_valid t0
      else if (194 <=? b0) && (b0 <=? 223) then
        match t0 with
        | b1 :: t1 => continuation b1 && utf8_valid t1
        | _ => false
        end
      else if (224 <=? b0) && (b0 <=? 239) then
        match t0 with
        | b1 :: b2 :: t2 => second b0 b1 && continuation b2 && utf8_valid t2
        | _ => false
        end
      else if (240 <=? b0) && (b0 <=? 244) then
        match t0 with
        | b1 :: b2 :: b3 :: t3 =>
            second b0 b1 && continuation b2 && continuation b3 && utf8_valid t3
        | _ => false
        end
      else false
  end.

Definition valid_utf8 (s : string) : bool :=
  utf8_valid (map nat_of_ascii (list_ascii_of_string s)).

(** [strings.Repeat] of one byte. *)
Fixpoint repeat_byte (c : ascii) (n : nat) : string :=
  match n with
  | O => EmptyString
  | S n' => String c (repeat_byte c n')
  end.

(** ** The invariant of the connection parameters *)

Definition params_positive (p : WebsocketConnParams) : Prop :=
  (0 < ReadLimit p)%Z /\ (0 < WriteDuration p)%Z.

(** What [Read] works on once it has fetched: the buffer if there is one,
    else the message that [conn.Read] gives. *)
Definition pendingBytes (s : State) : slice :=
  match buf s with
  | Some b => Some b
  | None =>
      match inbox s with
      | r :: _ => fst r
      | [] => None
      end
  end.

(** What [Read] leaves in the buffer when it copies from [m] into [p]. *)
Definition remainder (p : bytes) (m : slice) : slice :=
  if List.length p <? len m then slice_from m (List.length p) else None.

(** The number of calls of [Read], on buffers that are not empty, that use
    up a slice: one for each byte at most, and one for an empty message. *)
Definition cost (m : slice) : nat :=
  match m with
  | None => 0
  | Some b => Nat.max 1 (List.length b)
  end.

Definition inbox_cost (i : list (slice * option error)) : nat :=
  list_sum (map (fun r => Nat.max 1 (len (fst r))) i).

(** The result that the next call of [conn.Write] will give, and the script
    after it. *)
Definition next_write (s : State) : option error :=
  match outbox_res s with
  | r :: _ => r
  | [] => outbox_end s
  end.

Definition after_write (s : State) : State :=
  match outbox_res s with
  | _ :: rest => set_outbox_res rest s
  | [] => s
  end.

(** Sample data for the examples. *)
Definition errEOF : error := mkError "EOF" None.
Definition errClosed : error :=
  mkError "failed to read frame header: EOF" None.
Definition errPeerClose : error :=
  mkError "status = StatusNormalClosure" (Some StatusNormalClosure).
Definition hello : bytes := [x68; x65; x6c; x6c; x6f].

(** The inbox holds messages only, no failure. *)
Definition delivered (r : slice * option error) : Prop := snd r = None.

(** A caller's buffer with room for a byte at least. *)
Definition has_room (p : bytes) : Prop := 0 < List.length p.

(** Three messages, the second one empty, and buffers of two bytes. *)
Definition three_messages : list slice :=
  [Some [x68; x65; x6c]; Some []; Some [x6c; x6f]].
Definition small_buffers : list bytes := repeat [x00; x00] 8.

(** ** The shape of a history *)

(** What the server does while it handles a request: calls of [Read], and
    the fetches they cause. *)
Definition is_read_event (e : event) : bool :=
  match e with
  | EvRead _ | EvConnRead _ _ => true
  | _ => false
  end.

(** The events of [ServeHTTP] outside its loop. *)
Definition is_lifecycle (e : event) : bool :=
  match e with
  | EvAccept _ | EvSetReadLimit _ | EvLog _ _ _ _ | EvConnClose _ _ _ => true
  | _ => false
  end.

(** The history that the loop writes, with the error that ends it ([None]
    while it runs): whole cycles, then nothing, or a cycle whose request
    fails, or a cycle whose response is not written. *)
Inductive cycles (timeout : Z) : list event -> option error -> Prop :=
| cycles_running : cycles timeout [] None
| cycles_request_failed (reads : list event) (resp : bytes) (e : error) :
    Forall (fun ev => is_read_event ev = true) reads ->
    cycles timeout
      (EvHandleReader :: reads ++ [EvHandleReaderRet resp (Some e)]) (Some e)
| cycles_write_failed (reads : list event) (resp : bytes) (e : error) :
    Forall (fun ev => is_read_event ev = true) reads ->
    cycles timeout
      (EvHandleReader :: reads ++
         [EvHandleReaderRet resp None; EvOnNewRequest "any";
          EvConnWrite timeout MessageText resp (Some e)]) (Some e)
| cycles_cycle (reads : list event) (resp : bytes) (h : list event)
    (r : option error) :
    Forall (fun ev => is_read_event ev = true) reads ->
    cycles timeout h r ->
    cycles timeout
      (EvHandleReader :: reads ++
         [EvHandleReaderRet resp None; EvOnNewRequest "any";
          EvConnWrite timeout MessageText resp None] ++ h) r.

(** A history is half-duplex when no request is read while a response is
    [pending] (returned by the server and not written yet), every response
    is written before the next one is produced, and nothing is written that
    the server did not return. *)
Fixpoint half_duplex (pending : bool) (h : list event) : bool :=
  match h with
  | [] => true
  | e :: h' =>
      if is_reading e then negb pending && half_duplex pending h'
      else if is_response e then negb pending && half_duplex true h'
      else if is_write e then pending && half_duplex (negb (is_written e)) h'
      else half_duplex pending h'
  end.

(** The listener is called right after each request that the server
    handled without error, and nowhere else. *)
Fixpoint notified_once (h : list event) : bool :=
  match h with
  | [] => true
  | EvHandleReaderRet _ None :: h' =>
      match h' with
      | EvOnNewRequest _ :: h'' => notified_once h''
      | _ => false
      end
  | EvOnNewRequest _ :: _ => false
  | _ :: h' => notified_once h'
  end.

(** The state in which the loop starts, on a connection accepted in [s]. *)
Definition connected (prm : WebsocketConnParams) (s : State) : State :=
  record (EvSetReadLimit (ReadLimit prm)) (record (EvAccept None) s).

(** The reasons of the close frames sent. *)
Fixpoint close_reasons (h : list event) : list (Z * string) :=
  match h with
  | [] => []
  | EvConnClose code reason _ :: h' => (code, reason) :: close_reasons h'
  | _ :: h' => close_reasons h'
  end.

(** A server that reads once into a buffer of eight bytes and answers with
    what it read, or fails with the error of the read. *)
Definition echo : Server :=
  fun _ => CallRead (repeat x00 8) (fun n err p => Return (firstn n p) err).

(** A server that answers without reading. *)
Definition constant (resp : bytes) : Server := fun _ => Return resp None.

(** A server whose request processing fails. *)
Definition failing (e : error) : Server := fun _ => Return [] (Some e).

(** An error message of 500 bytes, well-formed UTF-8, in which a character
    of two bytes (U+00E9) sits on bytes 125 and 126. *)
Definition long_message : string :=
  (repeat_byte "a" 124 ++
   String (ascii_of_nat 195) (String (ascii_of_nat 169) (repeat_byte "b" 374)))%string.

Definition errLong : error := mkError long_message None.
Definition errTimeout : error :=
  mkError "failed to write msg: context deadline exceeded" None.
Definition errAlreadyClosed : error :=
  mkError "failed to close WebSocket: already wrote close" None.

(** ** More readings of the history *)

(** The responses that the server has returned, in order. *)
Fixpoint returned (h : list event) : list bytes :=
  match h with
  | [] => []
  | EvHandleReaderRet resp None :: h' => resp :: returned h'
  | _ :: h' => returned h'
  end.

Definition is_set_limit (e : event) : bool :=
  match e with EvSetReadLimit _ => true | _ => false end.

(** The events of [ServeHTTP] after its loop. *)
Definition is_teardown (e : event) : bool :=
  match e with
  | EvLog _ _ _ _ | EvConnClose _ _ _ => true
  | _ => false
  end.

(** A call of [conn.Write] is made with the timeout [t] and the type text;
    the read limit is not set again. *)
Definition configured (t : Z) (e : event) : Prop :=
  match e with
  | EvConnWrite t' typ _ _ => t' = t /\ typ = MessageText
  | EvSetReadLimit _ => False
  | _ => True
  end.

(** A string of bytes below 128. *)
Definition ascii_only (s : string) : Prop :=
  Forall (fun c => nat_of_ascii c < 128) (list_ascii_of_string s).

(** A connection parameter set by hand, and bytes that come with an error. *)
Definition slow_params : WebsocketConnParams := mkParams 4096 (30 * Second).
Definition partial_data : bytes := [x7b; x22; x69].

(** ** Errors on their way to the loop *)








(** * Properties *)

(** ** The equations of [Read] *)

Lemma copy_prefix (p b : bytes) :
  List.length p < List.length b -> copy p (firstn (List.length p) b) = copy p b.
Proof.
  intros H. unfold copy.
  rewrite length_firstn.
  replace (Nat.min (List.length p) (Nat.min (List.length p) (List.length b)))
    with (Nat.min (List.length p) (List.length b)) by lia.
  rewrite Nat.min_l by lia.
  rewrite firstn_firstn. rewrite Nat.min_id. reflexivity.
Qed.

Arguments copy : simpl never.
Arguments Nat.ltb : simpl never.
Arguments Nat.leb : simpl never.
Arguments count : simpl never.
Arguments Nat.max : simpl never.
Arguments Nat.min : simpl never.

Ltac run_Read :=
  unfold Read, conn_Read, bind, get, ret, modify, remainder; cbn.

Lemma Read_buffered (p b : bytes) (s : State) :
  buf s = Some b ->
  Read p s = ((fst (copy p b), None, snd (copy p b)),
              set_buf (remainder p (Some b)) s).
Proof.
  intros H. destruct s; cbn in H; subst. run_Read.
  unfold len; cbn.
  destruct (List.length p <? List.length b) eqn:E.
  - apply Nat.ltb_lt in E. rewrite (copy_prefix p b E).
    destruct (copy p b). reflexivity.
  - destruct (copy p b). reflexivity.
Qed.

Lemma Read_fetch (p : bytes) (m : slice) (rest : list (slice * option error))
    (s : State) :
  buf s = None -> inbox s = (m, None) :: rest ->
  Read p s = ((fst (copy p (content m)), None, snd (copy p (content m))),
              set_buf (remainder p m)
                (record (EvConnRead m None) (set_inbox rest s))).
Proof.
  intros Hb Hi. destruct s; cbn in Hb, Hi; subst. run_Read.
  destruct (List.length p <? len m) eqn:E.
  - destruct m as [b|]; cbn in *.
    + apply Nat.ltb_lt in E. unfold len in E. cbn in E.
      rewrite (copy_prefix p b E). destruct (copy p b). reflexivity.
    + discriminate.
  - destruct (copy p (content m)). reflexivity.
Qed.

Lemma Read_fetch_error (p : bytes) (m : slice) (e : error)
    (rest : list (slice * option error)) (s : State) :
  buf s = None -> inbox s = (m, Some e) :: rest ->
  Read p s = ((len m, Some e, p),
              set_buf m (record (EvConnRead m (Some e)) (set_inbox rest s))).
Proof.
  intros Hb Hi. destruct s; cbn in Hb, Hi; subst. reflexivity.
Qed.

Lemma Read_dead (p : bytes) (s : State) :
  buf s = None -> inbox s = [] ->
  Read p s = ((0, Some (inbox_end s), p),
              set_buf None (record (EvConnRead None (Some (inbox_end s))) s)).
Proof.
  intros Hb Hi. destruct s; cbn in Hb, Hi; subst. reflexivity.
Qed.

(** ** The equation of [Write] *)

Lemma Write_eq (wsc : websocketConn) (p : bytes) (s : State) :
  Write wsc p s =
  (match next_write s with
   | Some e => (0, Some e)
   | None => (List.length p, None)
   end,
   record (EvConnWrite (WriteDuration (params wsc)) MessageText p (next_write s))
          (after_write s)).
Proof.
  unfold Write, conn_Write, bind, get, ret, modify, next_write, after_write.
  destruct s as [a i ie o oe c b h]; cbn.
  destruct o as [|r rest]; cbn.
  - destruct oe; reflexivity.
  - destruct r; reflexivity.
Qed.

Lemma sent_app (h1 h2 : list event) : sent (h1 ++ h2) = sent h1 ++ sent h2.
Proof.
  induction h1 as [|e h1 IH]; cbn; [reflexivity|].
  destruct e; try exact IH.
  destruct err; [exact IH|]. cbn. now rewrite IH.
Qed.

Lemma history_after_write (s : State) : history (after_write s) = history s.
Proof. unfold after_write. destruct (outbox_res s); reflexivity. Qed.

(** ** C10: a message of length zero *)

(** C10.  When nothing is buffered and the transport delivers a message of
    length zero, [Read] returns the count 0 and no error, whatever the
    caller's buffer, which it leaves as it was; the message is consumed and
    the buffer is nil again afterwards. *)
Theorem Read_empty_message (p : bytes) (m : slice)
    (rest : list (slice * option error)) (s : State) :
  buf s = None -> inbox s = (m, None) :: rest -> len m = 0 ->
  fst (Read p s) = (0, None, p) /\
  buf (snd (Read p s)) = None /\
  inbox (snd (Read p s)) = rest.
Proof.
  intros Hb Hi Hm. rewrite (Read_fetch p m rest s Hb Hi). cbn.
  unfold len in Hm. apply length_zero_iff_nil in Hm.
  unfold remainder, len, copy. rewrite Hm. cbn.
  rewrite Nat.min_0_r. cbn.
  replace (List.length p <? 0) with false
    by (symmetry; apply Nat.ltb_ge; lia).
  repeat split.
Qed.

Lemma Read_empty_message_witness :
  let s := fresh None [delivers (Some [])] errEOF [] None None in
  (buf s = None /\ inbox s = (Some [], None) :: [] /\ len (Some []) = 0) /\
  (fst (Read hello s) = (0, None, hello) /\
   buf (snd (Read hello s)) = None /\
   inbox (snd (Read hello s)) = []).
Proof.
  split.
  - repeat split.
  - apply (Read_empty_message hello (Some []) []); reflexivity.
Defined.

(** ** C5: one text message for each write *)

(** C5.  A call of [Write] that succeeds has made one call of [conn.Write],
    which sent the whole payload as one text message after the messages
    sent before, and it returns the length of the payload. *)
Theorem Write_one_text_message (wsc : websocketConn) (p : bytes) (s : State) :
  snd (fst (Write wsc p s)) = None ->
  fst (Write wsc p s) = (List.length p, None) /\
  history (snd (Write wsc p s)) =
    history s ++ [EvConnWrite (WriteDuration (params wsc)) MessageText p None] /\
  sent (history (snd (Write wsc p s))) = sent (history s) ++ [(MessageText, p)].
Proof.
  rewrite Write_eq. cbn.
  destruct (next_write s) as [e|] eqn:E; cbn; [discriminate|].
  intros _. rewrite history_after_write. rewrite sent_app.
  repeat split.
Qed.

Lemma Write_one_text_message_witness :
  let wsc := mkConn DefaultWebsocketConnParams in
  let s := fresh None [] errEOF [] None None in
  snd (fst (Write wsc hello s)) = None /\
  fst (Write wsc hello s) = (5, None) /\
  sent (history (snd (Write wsc hello s))) = [(MessageText, hello)].
Proof.
  cbv zeta. split; [reflexivity|].
  pose proof (Write_one_text_message (mkConn DefaultWebsocketConnParams) hello
                (fresh None [] errEOF [] None None) eq_refl) as [H1 [_ H3]].
  split; [exact H1 | exact H3].
Defined.

(** ** C1: the stream of the messages *)

Lemma copy_chunk (p b : bytes) :
  firstn (Nat.min (List.length p) (List.length b))
    (firstn (Nat.min (List.length p) (List.length b)) b ++
     skipn (Nat.min (List.length p) (List.length b)) p)
  = firstn (List.length p) b.
Proof.
  set (n := Nat.min (List.length p) (List.length b)).
  assert (Hn : List.length (firstn n b) = n)
    by (rewrite length_firstn; unfold n; lia).
  rewrite firstn_app, Hn, Nat.sub_diag. cbn. rewrite app_nil_r.
  rewrite <- Hn at 1. rewrite firstn_all.
  unfold n. destruct (Nat.le_ge_cases (List.length p) (List.length b)).
  - now rewrite Nat.min_l.
  - rewrite Nat.min_r by assumption. rewrite firstn_all.
    now rewrite firstn_all2.
Qed.

Lemma content_remainder (p : bytes) (m : slice) :
  content (remainder p m) = skipn (List.length p) (content m).
Proof.
  unfold remainder. destruct (List.length p <? len m) eqn:E.
  - destruct m; cbn; [reflexivity | now rewrite skipn_nil].
  - apply Nat.ltb_ge in E. cbn. symmetry. now apply skipn_all2.
Qed.

Lemma skipn_min (p b : bytes) :
  skipn (Nat.min (List.length p) (List.length b)) b = skipn (List.length p) b.
Proof.
  destruct (Nat.le_ge_cases (List.length p) (List.length b)).
  - now rewrite Nat.min_l.
  - rewrite Nat.min_r by assumption. rewrite skipn_all.
    symmetry. now apply skipn_all2.
Qed.

Lemma count_app (f : event -> bool) (h1 h2 : list event) :
  count f (h1 ++ h2) = count f h1 + count f h2.
Proof. unfold count. now rewrite filter_app, length_app. Qed.

Lemma cost_remainder (p : bytes) (m : slice) :
  has_room p -> cost (remainder p m) < Nat.max 1 (len m).
Proof.
  unfold has_room, remainder. intros Hp.
  destruct (List.length p <? len m) eqn:E; [|unfold cost; lia].
  apply Nat.ltb_lt in E. unfold len in *.
  destruct m as [b|]; unfold cost, slice_from, option_map, content in *;
    [|cbn in E; lia].
  rewrite length_skipn. lia.
Qed.

Lemma inbox_cost_bound (ms : list slice) :
  inbox_cost (map delivers ms)
  <= List.length (List.concat (map content ms)) + List.length ms.
Proof.
  unfold inbox_cost. induction ms as [|m ms IH]; cbn; [lia|].
  rewrite length_app. unfold list_sum, len in *. lia.
Qed.

Lemma delivered_messages (ms : list slice) : Forall delivered (map delivers ms).
Proof. induction ms; constructor; [reflexivity | assumption]. Qed.

Lemma stream_fresh (ms : list slice) acc iend o oend cl :
  stream (fresh acc (map delivers ms) iend o oend cl)
  = List.concat (map content ms).
Proof. unfold stream; cbn. now rewrite map_map. Qed.

(** One call of [Read] on a connection that only delivers messages: the
    bytes it gives are the head of the stream. *)
Lemma Read_stream (p : bytes) (s : State) n err p' s' :
  Forall delivered (inbox s) ->
  Read p s = ((n, err, p'), s') ->
  firstn n p' ++ stream s' = stream s /\
  Forall delivered (inbox s') /\
  fetched s' + List.length (inbox s') = fetched s + List.length (inbox s).
Proof.
  intros Hok H. destruct (buf s) as [b|] eqn:Hb.
  - rewrite (Read_buffered p b s Hb) in H. inversion H; subst; clear H.
    rewrite copy_chunk. unfold stream; cbn.
    rewrite content_remainder, Hb. cbn.
    rewrite app_assoc, firstn_skipn. auto.
  - destruct (inbox s) as [|[m [e|]] rest] eqn:Hi.
    + rewrite (Read_dead p s Hb Hi) in H. inversion H; subst; clear H.
      unfold stream, fetched; cbn. rewrite Hb, Hi, count_app. cbn.
      split; [reflexivity|]. split; [constructor|]. unfold count; cbn; lia.
    + inversion Hok as [|? ? Hd]; subst. discriminate Hd.
    + rewrite (Read_fetch p m rest s Hb Hi) in H.
      inversion H; subst; clear H.
      rewrite copy_chunk. unfold stream, fetched; cbn.
      rewrite content_remainder, Hb, Hi, count_app. cbn.
      rewrite app_assoc, firstn_skipn.
      inversion Hok; subst.
      split; [reflexivity|]. split; [assumption|]. unfold count; cbn; lia.
Qed.

Lemma readAll_cons (p : bytes) (ps : list bytes) (s : State) :
  readAll (p :: ps) s =
  match Read p s with
  | ((n, Some e, p'), s1) => (([firstn n p'], Some e), s1)
  | ((n, None, p'), s1) =>
      match readAll ps s1 with
      | ((chunks, e), s2) => ((firstn n p' :: chunks, e), s2)
      end
  end.
Proof.
  cbn [readAll]. unfold bind.
  destruct (Read p s) as [[[n [e|]] p'] s1].
  - reflexivity.
  - destruct (readAll ps s1) as [[chunks e] s2]. reflexivity.
Qed.

Lemma readAll_stream (ps : list bytes) :
  forall (s : State) chunks err s',
  Forall delivered (inbox s) ->
  readAll ps s = ((chunks, err), s') ->
  List.concat chunks ++ stream s' = stream s /\
  fetched s' + List.length (inbox s') = fetched s + List.length (inbox s).
Proof.
  induction ps as [|p ps IH]; intros s chunks err s' Hok H.
  - inversion H; subst. auto.
  - rewrite readAll_cons in H.
    destruct (Read p s) as [[[n e] p'] s1] eqn:HR.
    destruct (Read_stream p s n e p' s1 Hok HR) as (Hs & Hok1 & Hf).
    destruct e as [e|].
    + inversion H; subst; clear H. cbn. rewrite app_nil_r. auto.
    + destruct (readAll ps s1) as [[chunks1 e1] s2] eqn:HA.
      inversion H; subst; clear H.
      destruct (IH s1 chunks1 err s' Hok1 HA) as (Hs2 & Hf2).
      cbn. rewrite <- app_assoc, Hs2. split; [assumption | lia].
Qed.

(** Buffers with room use up what is buffered and the whole inbox, with one
    fetch for each message and no fetch after the last one. *)
Lemma readAll_drains (ps : list bytes) :
  forall (s : State),
  Forall delivered (inbox s) ->
  Forall has_room ps ->
  cost (buf s) + inbox_cost (inbox s) <= List.length ps ->
  exists k chunks s',
    k <= cost (buf s) + inbox_cost (inbox s) /\
    readAll (firstn k ps) s = ((chunks, None), s') /\
    inbox s' = [] /\ buf s' = None /\
    fetches s' = fetches s + List.length (inbox s).
Proof.
  induction ps as [|p ps IH]; intros s Hok Hps Hc.
  - exists 0, [], s. cbn in Hc.
    destruct (buf s) as [b|] eqn:Hb; [unfold cost in Hc; lia|].
    destruct (inbox s) as [|r rest] eqn:Hi;
      [|unfold inbox_cost in Hc; cbn in Hc; lia].
    repeat split; try assumption; try reflexivity; cbn [List.length]; lia.
  - inversion Hps as [|? ? Hp Hps']; subst.
    destruct (buf s) as [b|] eqn:Hb.
    + pose proof (Read_buffered p b s Hb) as HR.
      pose proof (cost_remainder p (Some b) Hp) as Hlt.
      set (s1 := set_buf (remainder p (Some b)) s) in *.
      destruct (IH s1) as (k & chunks & s' & Hk & HA & Hi' & Hb' & Hf').
      * exact Hok.
      * exact Hps'.
      * unfold s1; cbn [buf inbox set_buf]. cbn [cost List.length] in Hc.
        unfold len in Hlt; cbn [content] in Hlt. lia.
      * exists (S k), (firstn (fst (copy p b)) (snd (copy p b)) :: chunks), s'.
        split; [|split; [|split; [|split]]]; try assumption.
        -- unfold s1 in Hk; cbn [buf inbox set_buf] in Hk.
           cbn [cost]. unfold len in Hlt; cbn [content] in Hlt. lia.
        -- cbn [firstn]. rewrite readAll_cons, HR, HA. reflexivity.
    + destruct (inbox s) as [|[m [e|]] rest] eqn:Hi.
      * exists 0, [], s. repeat split; try assumption; try reflexivity; cbn [List.length]; lia.
      * inversion Hok as [|? ? Hd]; subst. discriminate Hd.
      * pose proof (Read_fetch p m rest s Hb Hi) as HR.
        pose proof (cost_remainder p m Hp) as Hlt.
        set (s1 := set_buf (remainder p m)
                     (record (EvConnRead m None) (set_inbox rest s))) in *.
        assert (Hcost : inbox_cost ((m, None) :: rest)
                        = Nat.max 1 (len m) + inbox_cost rest) by reflexivity.
        destruct (IH s1) as (k & chunks & s' & Hk & HA & Hi' & Hb' & Hf').
        -- inversion Hok; assumption.
        -- exact Hps'.
        -- unfold s1; cbn [buf inbox set_buf record set_inbox].
           rewrite Hcost in Hc. cbn [List.length cost] in Hc. lia.
        -- exists (S k),
             (firstn (fst (copy p (content m))) (snd (copy p (content m)))
                :: chunks), s'.
           split; [|split; [|split; [|split]]]; try assumption.
           ++ unfold s1 in Hk; cbn [buf inbox set_buf record set_inbox] in Hk.
              rewrite Hcost. cbn [cost]. lia.
           ++ cbn [firstn]. rewrite readAll_cons, HR, HA. reflexivity.
           ++ rewrite Hf'. unfold s1, fetches.
              cbn [history buf inbox set_buf record set_inbox].
              rewrite count_app. unfold count at 2. cbn. lia.
Qed.

(** What one call of [Read] that succeeds copies and keeps. *)
Lemma Read_amount (p : bytes) (s : State) n p' s' :
  Read p s = ((n, None, p'), s') ->
  n = Nat.min (len (pendingBytes s)) (List.length p) /\
  p' = firstn n (content (pendingBytes s)) ++ skipn n p /\
  content (buf s') = skipn n (content (pendingBytes s)).
Proof.
  intros H. unfold pendingBytes. destruct (buf s) as [b|] eqn:Hb.
  - rewrite (Read_buffered p b s Hb) in H. inversion H; subst; clear H.
    cbn [buf set_buf]. rewrite content_remainder. unfold len. cbn [content].
    rewrite (Nat.min_comm (List.length b)). rewrite skipn_min. auto.
  - destruct (inbox s) as [|[m [e|]] rest] eqn:Hi.
    + rewrite (Read_dead p s Hb Hi) in H. discriminate H.
    + rewrite (Read_fetch_error p m e rest s Hb Hi) in H. discriminate H.
    + rewrite (Read_fetch p m rest s Hb Hi) in H. inversion H; subst; clear H.
      cbn [buf set_buf fst]. rewrite content_remainder. unfold len.
      rewrite (Nat.min_comm (List.length (content m))). rewrite skipn_min.
      auto.
Qed.

(** While bytes are buffered, [Read] does not touch the transport. *)
Lemma Read_no_fetch (p : bytes) (s : State) :
  0 < len (buf s) ->
  history (snd (Read p s)) = history s /\
  inbox (snd (Read p s)) = inbox s /\
  snd (fst (fst (Read p s))) = None.
Proof.
  intros H. destruct (buf s) as [b|] eqn:Hb; [|cbn in H; lia].
  rewrite (Read_buffered p b s Hb). auto.
Qed.

(** C1.  On a connection whose transport delivers the messages [msgs], and
    for any caller buffers [ps] (of any size, zero included): the bytes that
    successive calls of [Read] give, followed by the bytes still buffered and
    the messages not fetched yet, are the concatenation of the messages, and
    the messages fetched are those no longer in the inbox; when the buffers
    have room for a byte at least, at most L + N calls give the whole
    concatenation with N calls of [conn.Read] exactly; each call that
    succeeds copies min(len(pending), len(p)) bytes and keeps the rest; and
    a call made while bytes are buffered does not fetch. *)
Theorem Read_reassembles (msgs : list slice)
    (acc : option error) (iend : error) (o : list (option error))
    (oend cl : option error) :
  let s0 := fresh acc (map delivers msgs) iend o oend cl in
  let all := List.concat (map content msgs) in
  let N := List.length msgs in
  (forall ps chunks err s,
      readAll ps s0 = ((chunks, err), s) ->
      List.concat chunks ++ stream s = all /\
      fetched s + List.length (inbox s) = N) /\
  (forall ps,
      Forall has_room ps -> List.length all + N <= List.length ps ->
      exists k chunks s,
        k <= List.length all + N /\
        readAll (firstn k ps) s0 = ((chunks, None), s) /\
        List.concat chunks = all /\ fetches s = N /\
        inbox s = [] /\ buf s = None) /\
  (forall p s n p' s',
      Read p s = ((n, None, p'), s') ->
      n = Nat.min (len (pendingBytes s)) (List.length p) /\
      p' = firstn n (content (pendingBytes s)) ++ skipn n p /\
      content (buf s') = skipn n (content (pendingBytes s))) /\
  (forall p s,
      0 < len (buf s) ->
      history (snd (Read p s)) = history s /\
      inbox (snd (Read p s)) = inbox s /\
      snd (fst (fst (Read p s))) = None).
Proof.
  intros s0 all N.
  assert (Hok : Forall delivered (inbox s0)) by apply delivered_messages.
  assert (Hs0 : stream s0 = all) by apply stream_fresh.
  split; [|split; [|split]].
  - intros ps chunks err s H.
    destruct (readAll_stream ps s0 chunks err s Hok H) as [H1 H2].
    rewrite H1, Hs0. split; [reflexivity|].
    rewrite H2. unfold s0, fetched, N; cbn. now rewrite length_map.
  - intros ps Hps Hlen.
    pose proof (inbox_cost_bound msgs) as Hb.
    destruct (readAll_drains ps s0 Hok Hps)
      as (k & chunks & s & Hk & HA & Hi & Hbuf & Hf).
    + unfold s0; cbn [buf inbox fresh cost]. fold all N in Hb. lia.
    + exists k, chunks, s.
      unfold s0 in Hk; cbn [buf inbox fresh cost] in Hk. fold all N in Hb.
      split; [lia|]. split; [exact HA|].
      destruct (readAll_stream (firstn k ps) s0 chunks None s Hok HA)
        as [H1 _].
      unfold stream in H1. rewrite Hi, Hbuf in H1. cbn in H1.
      rewrite app_nil_r in H1. fold (stream s0) in H1.
      split; [now rewrite H1|].
      split; [|split; assumption].
      rewrite Hf. unfold s0, fetches, N; cbn. now rewrite length_map.
  - intros p s n p' s' H. exact (Read_amount p s n p' s' H).
  - intros p s H. exact (Read_no_fetch p s H).
Qed.

Lemma Read_reassembles_witness :
  (Forall has_room small_buffers /\
   List.length (List.concat (map content three_messages))
     + List.length three_messages <= List.length small_buffers) /\
  exists k chunks s,
    k <= 8 /\
    readAll (firstn k small_buffers)
      (fresh None (map delivers three_messages) errEOF [] None None)
      = ((chunks, None), s) /\
    List.concat chunks = [x68; x65; x6c; x6c; x6f] /\ fetches s = 3 /\
    inbox s = [] /\ buf s = None.
Proof.
  assert (H1 : Forall has_room small_buffers)
    by (repeat constructor).
  assert (H2 : List.length (List.concat (map content three_messages))
               + List.length three_messages <= List.length small_buffers)
    by (cbn; lia).
  split; [split; assumption|].
  exact (proj1 (proj2 (Read_reassembles three_messages None errEOF [] None None))
           small_buffers H1 H2).
Defined.

(** ** The history of the loop *)

Lemma Read_history (p : bytes) (s : State) :
  exists t,
    history (snd (Read p s)) = history s ++ t /\
    Forall (fun ev => is_read_event ev = true) t /\
    close_res (snd (Read p s)) = close_res s.
Proof.
  destruct (buf s) as [b|] eqn:Hb.
  - rewrite (Read_buffered p b s Hb). exists []. cbn.
    rewrite app_nil_r. auto.
  - destruct (inbox s) as [|[m [e|]] rest] eqn:Hi.
    + rewrite (Read_dead p s Hb Hi). eexists. cbn. repeat split.
      repeat constructor.
    + rewrite (Read_fetch_error p m e rest s Hb Hi). eexists. cbn.
      repeat split. repeat constructor.
    + rewrite (Read_fetch p m rest s Hb Hi). eexists. cbn.
      repeat split. repeat constructor.
Qed.

Lemma runHandler_history (h : handler) :
  forall s : State,
  exists t,
    history (snd (runHandler h s)) = history s ++ t /\
    Forall (fun ev => is_read_event ev = true) t /\
    close_res (snd (runHandler h s)) = close_res s.
Proof.
  induction h as [resp err | p k IH]; intros s.
  - exists []. cbn. rewrite app_nil_r. auto.
  - cbn [runHandler]. unfold bind, modify.
    destruct (Read_history p (record (EvRead (List.length p)) s))
      as (t1 & H1 & F1 & C1).
    destruct (Read p (record (EvRead (List.length p)) s))
      as [[[n e] p'] s1] eqn:HR.
    cbn [snd] in H1, C1.
    destruct (IH n e p' s1) as (t2 & H2 & F2 & C2).
    exists (EvRead (List.length p) :: t1 ++ t2).
    rewrite H2, H1, C2, C1. cbn. rewrite <- !app_assoc. cbn.
    repeat split. constructor; [reflexivity|]. now apply Forall_app.
Qed.

Lemma HandleReader_history (rpc : Server) (cycle : nat) (s : State) :
  exists reads,
    history (snd (HandleReader rpc cycle s))
    = history s ++ EvHandleReader :: reads ++
        [EvHandleReaderRet (fst (fst (HandleReader rpc cycle s)))
                           (snd (fst (HandleReader rpc cycle s)))] /\
    Forall (fun ev => is_read_event ev = true) reads /\
    close_res (snd (HandleReader rpc cycle s)) = close_res s.
Proof.
  unfold HandleReader, bind, modify, ret.
  destruct (runHandler_history (rpc cycle) (record EvHandleReader s))
    as (t & H & F & C).
  destruct (runHandler (rpc cycle) (record EvHandleReader s))
    as [[resp err] s1].
  cbn in *. exists t. rewrite H, C. rewrite <- !app_assoc. cbn. auto.
Qed.

Lemma serveLoop_step (fuel : nat) (rpc : Server) (cycle : nat)
    (wsc : websocketConn) (s : State) :
  serveLoop (S fuel) rpc cycle wsc s =
  match HandleReader rpc cycle s with
  | ((resp, Some e), s1) => (Some e, s1)
  | ((resp, None), s1) =>
      match Write wsc resp (record (EvOnNewRequest "any") s1) with
      | ((_, Some e), s2) => (Some e, s2)
      | ((_, None), s2) => serveLoop fuel rpc (S cycle) wsc s2
      end
  end.
Proof.
  cbn [serveLoop]. unfold bind, OnNewRequest, modify.
  destruct (HandleReader rpc cycle s) as [[resp [e|]] s1]; [reflexivity|].
  destruct (Write wsc resp (record (EvOnNewRequest "any") s1))
    as [[n [e|]] s2]; reflexivity.
Qed.

Lemma serveLoop_cycles (rpc : Server) (wsc : websocketConn) (fuel : nat) :
  forall (cycle : nat) (s : State),
  exists h,
    history (snd (serveLoop fuel rpc cycle wsc s)) = history s ++ h /\
    cycles (WriteDuration (params wsc)) h
           (fst (serveLoop fuel rpc cycle wsc s)) /\
    close_res (snd (serveLoop fuel rpc cycle wsc s)) = close_res s.
Proof.
  induction fuel as [|fuel IH]; intros cycle s.
  - exists []. cbn. rewrite app_nil_r. repeat split. constructor.
  - rewrite serveLoop_step.
    destruct (HandleReader_history rpc cycle s) as (reads & H & F & C).
    destruct (HandleReader rpc cycle s) as [[resp [e|]] s1]; cbn in H, C.
    + eexists. cbn. split; [exact H|]. split; [|exact C].
      now constructor.
    + rewrite Write_eq.
      set (s2 := record _ (after_write _)).
      assert (H2 : history s2 = history s ++ EvHandleReader :: reads ++
                [EvHandleReaderRet resp None; EvOnNewRequest "any";
                 EvConnWrite (WriteDuration (params wsc)) MessageText resp
                   (next_write (record (EvOnNewRequest "any") s1))]).
      { unfold s2. cbn [history record]. rewrite history_after_write.
        cbn [history record]. rewrite H. rewrite <- !app_assoc. cbn.
        rewrite <- !app_assoc. reflexivity. }
      assert (C2 : close_res s2 = close_res s).
      { unfold s2, after_write. cbn.
        destruct (outbox_res s1); cbn; exact C. }
      destruct (next_write (record (EvOnNewRequest "any") s1)) as [e|].
      * eexists. cbn. split; [exact H2|]. split; [|exact C2].
        now constructor.
      * destruct (IH (S cycle) s2) as (h & H3 & Cy & C3).
        eexists. split; [|split].
        -- rewrite H3, H2. rewrite <- app_assoc. cbn. rewrite <- app_assoc.
           cbn. reflexivity.
        -- now constructor.
        -- now rewrite C3.
Qed.

(** ** After the loop *)

Lemma ServeHTTP_connected (fuel : nat) (ws : Websocket)
    (prm : WebsocketConnParams) (s : State) :
  accept_res s = None -> connParams ws = Some prm ->
  ServeHTTP fuel ws s =
  match serveLoop fuel (rpc ws) 0 (mkConn prm) (connected prm s) with
  | (None, s2) => (Running, s2)
  | (Some e, s2) => (Returned, snd (finish e s2))
  end.
Proof.
  intros Ha Hp.
  unfold ServeHTTP, Accept, newWebsocketConn, bind, get, modify, ret, connected.
  rewrite Ha, Hp. cbn.
  destruct (serveLoop fuel (rpc ws) 0 (mkConn prm) _) as [[e|] s2];
    [|reflexivity].
  destruct (finish e s2). reflexivity.
Qed.

(** Once the loop has ended, more fuel changes nothing. *)
Lemma serveLoop_more_fuel (rpc : Server) (wsc : websocketConn) (fuel : nat) :
  forall (fuel' cycle : nat) (s : State) (e : error) (s2 : State),
  fuel <= fuel' ->
  serveLoop fuel rpc cycle wsc s = (Some e, s2) ->
  serveLoop fuel' rpc cycle wsc s = (Some e, s2).
Proof.
  induction fuel as [|fuel IH]; intros fuel' cycle s e s2 Hle H.
  - discriminate H.
  - destruct fuel' as [|fuel']; [lia|].
    rewrite serveLoop_step in *.
    destruct (HandleReader rpc cycle s) as [[resp [e1|]] s1]; [exact H|].
    destruct (Write wsc resp (record (EvOnNewRequest "any") s1))
      as [[n [e1|]] s3]; [exact H|].
    apply IH; [lia | exact H].
Qed.

Lemma ServeHTTP_more_fuel (fuel fuel' : nat) (ws : Websocket)
    (prm : WebsocketConnParams) (s : State) (e : error) (s2 : State) :
  accept_res s = None -> connParams ws = Some prm ->
  serveLoop fuel (rpc ws) 0 (mkConn prm) (connected prm s) = (Some e, s2) ->
  fuel <= fuel' ->
  ServeHTTP fuel' ws s = ServeHTTP fuel ws s.
Proof.
  intros Ha Hp HL Hle.
  rewrite !(ServeHTTP_connected _ ws prm s Ha Hp), HL.
  now rewrite (serveLoop_more_fuel (rpc ws) (mkConn prm) fuel fuel' 0 _ e s2 Hle HL).
Qed.

Lemma finish_peer_close (e : error) (code : Z) (s : State) :
  closeError e = Some code ->
  finish e s =
  (tt, record (EvLog InfoLevel "Client closed websocket connection" "status"
                 (LogStatus code)) s).
Proof.
  intros H. unfold finish, CloseStatus, logw, modify. rewrite H. reflexivity.
Qed.

Lemma finish_internal (e : error) (s : State) :
  closeError e = None ->
  history (snd (finish e s)) =
  history s ++
    EvLog WarnLevel "Closing websocket connection due to internal error" "err"
      (LogErr e)
    :: EvConnClose StatusInternalError (closeReason (Error e)) (close_res s)
    :: match close_res s with
       | Some ce =>
           if Contains (Error ce) "already wrote close" then []
           else [EvLog ErrorLevel "Failed to close websocket connection" "err"
                   (LogErr ce)]
       | None => []
       end.
Proof.
  intros H. unfold finish, conn_Close, logw, bind, get, modify, ret.
  rewrite H. cbn [close_res record].
  destruct (close_res s) as [ce|]; cbn.
  - destruct (Contains (Error ce) "already wrote close"); cbn;
      rewrite <- !app_assoc; reflexivity.
  - rewrite <- !app_assoc. reflexivity.
Qed.

Lemma cycles_not_lifecycle (t : Z) (h : list event) (r : option error) :
  cycles t h r -> Forall (fun ev => is_lifecycle ev = false) h.
Proof.
  assert (R : forall reads, Forall (fun ev => is_read_event ev = true) reads ->
                Forall (fun ev => is_lifecycle ev = false) reads).
  { intros reads F. eapply Forall_impl; [|exact F].
    intros [] E; cbn in *; congruence. }
  induction 1 as [|reads resp e F|reads resp e F|reads resp h r F C IH].
  - constructor.
  - constructor; [reflexivity|]. apply Forall_app; split; [now apply R|].
    repeat constructor.
  - constructor; [reflexivity|]. apply Forall_app; split; [now apply R|].
    repeat constructor.
  - constructor; [reflexivity|]. apply Forall_app; split; [now apply R|].
    cbn. repeat (constructor; [reflexivity|]). exact IH.
Qed.

Lemma count_none (f g : event -> bool) (h : list event) :
  (forall ev, f ev = true -> g ev = true) ->
  Forall (fun ev => g ev = false) h -> count f h = 0.
Proof.
  intros Hfg F. induction F as [|ev h Hev F IH]; [reflexivity|].
  change (ev :: h) with ([ev] ++ h). rewrite count_app, IH.
  unfold count; cbn. destruct (f ev) eqn:E; [|reflexivity].
  apply Hfg in E. congruence.
Qed.

Lemma close_reasons_app (h1 h2 : list event) :
  close_reasons (h1 ++ h2) = close_reasons h1 ++ close_reasons h2.
Proof.
  induction h1 as [|ev h1 IH]; [reflexivity|].
  destruct ev; cbn; rewrite IH; reflexivity.
Qed.

Lemma close_reasons_none (h : list event) :
  Forall (fun ev => is_lifecycle ev = false) h -> close_reasons h = [].
Proof.
  induction 1 as [|ev h Hev F IH]; [reflexivity|].
  destruct ev; cbn in *; congruence.
Qed.

(** ** Strings *)

Lemma length_substring (n : nat) :
  forall s : string, n <= String.length s -> String.length (substring 0 n s) = n.
Proof.
  induction n as [|n IH]; intros [|c s] H; cbn in *; try reflexivity; try lia.
  rewrite IH; [reflexivity | lia].
Qed.

Lemma prefix_substring (n : nat) :
  forall s : string, prefix (substring 0 n s) s = true.
Proof.
  induction n as [|n IH]; intros [|c s]; cbn; try reflexivity.
  destruct (ascii_dec c c); [apply IH | congruence].
Qed.

Lemma prefix_refl (s : string) : prefix s s = true.
Proof.
  induction s as [|c s IH]; cbn; [reflexivity|].
  destruct (ascii_dec c c); [exact IH | congruence].
Qed.

Lemma closeReason_length (m : string) :
  String.length (closeReason m) = Nat.min closeReasonMaxBytes (String.length m).
Proof.
  unfold closeReason. destruct (closeReasonMaxBytes <? String.length m) eqn:E.
  - apply Nat.ltb_lt in E. rewrite length_substring; lia.
  - apply Nat.ltb_ge in E. lia.
Qed.

Lemma closeReason_prefix (m : string) : prefix (closeReason m) m = true.
Proof.
  unfold closeReason. destruct (closeReasonMaxBytes <? String.length m).
  - apply prefix_substring.
  - apply prefix_refl.
Qed.

Lemma closeReason_short (m : string) :
  String.length m <= closeReasonMaxBytes -> closeReason m = m.
Proof.
  intros H. unfold closeReason.
  replace (closeReasonMaxBytes <? String.length m) with false; [reflexivity|].
  symmetry. now apply Nat.ltb_ge.
Qed.

Lemma loop_exit_history (fuel : nat) (ws : Websocket)
    (prm : WebsocketConnParams) (s : State) (r : option error) (s2 : State) :
  serveLoop fuel (rpc ws) 0 (mkConn prm) (connected prm s) = (r, s2) ->
  exists h,
    history s2
    = history s ++ EvAccept None :: EvSetReadLimit (ReadLimit prm) :: h /\
    cycles (WriteDuration prm) h r /\
    close_res s2 = close_res s.
Proof.
  intros H.
  destruct (serveLoop_cycles (rpc ws) (mkConn prm) fuel 0 (connected prm s))
    as (h & H1 & H2 & H3).
  rewrite H in H1, H2, H3. cbn in H1, H2, H3.
  exists h. rewrite H1. rewrite <- !app_assoc. auto.
Qed.

(** ** C4: the peer closes the connection *)

(** C4.  When the loop ends with an error in which [errors.As] finds a
    close error of the transport, [ServeHTTP] logs one entry at
    informational severity, which carries the status code of the peer,
    sends no close frame and returns; more fuel gives the same run. *)
Theorem peer_close_is_logged_and_not_answered (fuel : nat) (ws : Websocket)
    (prm : WebsocketConnParams) (s : State) (e : error) (code : Z)
    (s2 : State) :
  accept_res s = None -> connParams ws = Some prm ->
  serveLoop fuel (rpc ws) 0 (mkConn prm) (connected prm s) = (Some e, s2) ->
  closeError e = Some code ->
  fst (ServeHTTP fuel ws s) = Returned /\
  history (snd (ServeHTTP fuel ws s)) =
    history s2 ++ [EvLog InfoLevel "Client closed websocket connection"
                     "status" (LogStatus code)] /\
  close_reasons (history (snd (ServeHTTP fuel ws s))) = close_reasons (history s) /\
  count is_close (history (snd (ServeHTTP fuel ws s))) = count is_close (history s) /\
  (forall fuel', fuel <= fuel' -> ServeHTTP fuel' ws s = ServeHTTP fuel ws s).
Proof.
  intros Ha Hp HL Hc.
  assert (HM : forall fuel', fuel <= fuel' ->
                 ServeHTTP fuel' ws s = ServeHTTP fuel ws s)
    by (intros fuel' Hle; exact (ServeHTTP_more_fuel fuel fuel' ws prm s e s2 Ha Hp HL Hle)).
  revert HM.
  rewrite (ServeHTTP_connected fuel ws prm s Ha Hp), HL. intros HM.
  rewrite (finish_peer_close e code s2 Hc). cbn [fst snd history record].
  destruct (loop_exit_history fuel ws prm s (Some e) s2 HL) as (h & H1 & Cy & _).
  pose proof (cycles_not_lifecycle _ _ _ Cy) as NL.
  split; [reflexivity|]. split; [reflexivity|].
  rewrite H1. split.
  - rewrite !close_reasons_app. cbn.
    rewrite (close_reasons_none h NL). now rewrite !app_nil_r.
  - split;
      [|intros fuel' Hle;
        rewrite (HM fuel' Hle), (finish_peer_close e code s2 Hc); reflexivity].
    rewrite !count_app.
    change (EvAccept None :: EvSetReadLimit (ReadLimit prm) :: h)
      with ([EvAccept None; EvSetReadLimit (ReadLimit prm)] ++ h).
    rewrite count_app.
    rewrite (count_none is_close is_lifecycle h); [unfold count; cbn; lia| |exact NL].
    intros []; cbn; congruence.
Qed.

Lemma peer_close_is_logged_and_not_answered_witness :
  let ws := NewWebsocket echo in
  let s := fresh None [(None, Some errPeerClose)] errEOF [] None None in
  fst (ServeHTTP 3 ws s) = Returned /\
  close_reasons (history (snd (ServeHTTP 3 ws s))) = [] /\
  history (snd (ServeHTTP 3 ws s)) =
    [EvAccept None; EvSetReadLimit (32 * 1024 * 1024);
     EvHandleReader; EvRead 8; EvConnRead None (Some errPeerClose);
     EvHandleReaderRet [] (Some errPeerClose);
     EvLog InfoLevel "Client closed websocket connection" "status"
       (LogStatus 1000)].
Proof.
  cbv zeta.
  pose proof (peer_close_is_logged_and_not_answered 3 (NewWebsocket echo)
                DefaultWebsocketConnParams
                (fresh None [(None, Some errPeerClose)] errEOF [] None None)
                errPeerClose 1000
                (snd (serveLoop 3 echo 0 (mkConn DefaultWebsocketConnParams)
                        (connected DefaultWebsocketConnParams
                           (fresh None [(None, Some errPeerClose)] errEOF []
                              None None))))
                eq_refl eq_refl eq_refl eq_refl) as (H1 & H2 & H3 & _).
  split; [exact H1|]. split; [exact H3|]. exact H2.
Defined.

(** ** C2: the close reason *)

(** C2, amended.  When the loop ends with an error that is not a close
    error of the transport, [ServeHTTP] closes the connection once, with the
    internal-error status and, as reason, the first 125 bytes of the message
    of the error: a prefix of the message, of length min(125, len), so 125
    bytes for a message of 500 bytes, and the message itself when it has at
    most 125 bytes.  The cut is made on bytes and may fall inside a
    character. *)
Theorem internal_error_close_reason (fuel : nat) (ws : Websocket)
    (prm : WebsocketConnParams) (s : State) (e : error) (s2 : State) :
  accept_res s = None -> connParams ws = Some prm ->
  serveLoop fuel (rpc ws) 0 (mkConn prm) (connected prm s) = (Some e, s2) ->
  closeError e = None ->
  fst (ServeHTTP fuel ws s) = Returned /\
  close_reasons (history (snd (ServeHTTP fuel ws s)))
    = close_reasons (history s) ++ [(StatusInternalError, closeReason (Error e))] /\
  prefix (closeReason (Error e)) (Error e) = true /\
  String.length (closeReason (Error e)) = Nat.min 125 (String.length (Error e)) /\
  (String.length (Error e) = 500 -> String.length (closeReason (Error e)) = 125) /\
  (String.length (Error e) <= 125 -> closeReason (Error e) = Error e).
Proof.
  intros Ha Hp HL Hc.
  rewrite (ServeHTTP_connected fuel ws prm s Ha Hp), HL. cbn [fst snd].
  rewrite (finish_internal e s2 Hc).
  destruct (loop_exit_history fuel ws prm s (Some e) s2 HL) as (h & H1 & Cy & _).
  pose proof (cycles_not_lifecycle _ _ _ Cy) as NL.
  pose proof (closeReason_length (Error e)) as HLen.
  unfold closeReasonMaxBytes in HLen.
  split; [reflexivity|]. split; [|split; [|split; [|split]]].
  - rewrite H1, !close_reasons_app. cbn. rewrite (close_reasons_none h NL).
    rewrite app_nil_r. cbn. destruct (close_res s2) as [ce|]; [|reflexivity].
    destruct (Contains (Error ce) "already wrote close"); reflexivity.
  - apply closeReason_prefix.
  - exact HLen.
  - intros H500. rewrite HLen, H500. reflexivity.
  - apply closeReason_short.
Qed.

Lemma internal_error_close_reason_witness :
  let ws := NewWebsocket (failing errLong) in
  let s := fresh None [] errEOF [] None None in
  fst (ServeHTTP 1 ws s) = Returned /\
  close_reasons (history (snd (ServeHTTP 1 ws s)))
    = [(StatusInternalError, closeReason long_message)] /\
  String.length (closeReason long_message) = 125.
Proof.
  cbv zeta.
  pose proof (internal_error_close_reason 1 (NewWebsocket (failing errLong))
                DefaultWebsocketConnParams
                (fresh None [] errEOF [] None None) errLong
                (snd (serveLoop 1 (failing errLong) 0
                        (mkConn DefaultWebsocketConnParams)
                        (connected DefaultWebsocketConnParams
                           (fresh None [] errEOF [] None None))))
                eq_refl eq_refl eq_refl eq_refl) as (H1 & H2 & _ & _ & H5 & _).
  split; [exact H1|]. split; [exact H2|]. exact (H5 eq_refl).
Defined.

(** C2, as stated, fails: the reason sent for an error whose message is
    well-formed UTF-8 is not well-formed UTF-8 when byte 125 of the message
    is the first byte of a character. *)
Lemma close_reason_splits_a_character :
  let ws := NewWebsocket (failing errLong) in
  let s := fresh None [] errEOF [] None None in
  String.length long_message = 500 /\
  valid_utf8 long_message = true /\
  close_reasons (history (snd (ServeHTTP 1 ws s)))
    = [(StatusInternalError, closeReason long_message)] /\
  String.length (closeReason long_message) = 125 /\
  valid_utf8 (closeReason long_message) = false.
Proof. vm_compute. repeat split. Qed.

(** ** C8: a close that fails *)

(** C8.  On the internal-error path, when [conn.Close] fails: if the message
    of its error contains "already wrote close", no entry at error level is
    logged; otherwise the failure is the last thing [ServeHTTP] logs, at
    error level, and it is the only entry at that level. *)
Theorem close_failure_logging (fuel : nat) (ws : Websocket)
    (prm : WebsocketConnParams) (s : State) (e ce : error) (s2 : State) :
  accept_res s = None -> connParams ws = Some prm ->
  serveLoop fuel (rpc ws) 0 (mkConn prm) (connected prm s) = (Some e, s2) ->
  closeError e = None ->
  close_res s = Some ce ->
  (Contains (Error ce) "already wrote close" = true ->
   count is_error_log (history (snd (ServeHTTP fuel ws s)))
     = count is_error_log (history s)) /\
  (Contains (Error ce) "already wrote close" = false ->
   count is_error_log (history (snd (ServeHTTP fuel ws s)))
     = count is_error_log (history s) + 1 /\
   exists h,
     history (snd (ServeHTTP fuel ws s)) =
       h ++ [EvConnClose StatusInternalError (closeReason (Error e)) (Some ce);
             EvLog ErrorLevel "Failed to close websocket connection" "err"
               (LogErr ce)]).
Proof.
  intros Ha Hp HL Hc Hce.
  rewrite (ServeHTTP_connected fuel ws prm s Ha Hp), HL. cbn [fst snd].
  rewrite (finish_internal e s2 Hc).
  destruct (loop_exit_history fuel ws prm s (Some e) s2 HL)
    as (h & H1 & Cy & Hcl).
  pose proof (cycles_not_lifecycle _ _ _ Cy) as NL.
  assert (Hz : count is_error_log h = 0).
  { apply (count_none is_error_log is_lifecycle); [|exact NL].
    intros []; cbn; congruence. }
  rewrite Hcl, Hce, H1.
  change (EvAccept None :: EvSetReadLimit (ReadLimit prm) :: h)
    with ([EvAccept None; EvSetReadLimit (ReadLimit prm)] ++ h).
  split; intros HC; rewrite HC.
  - rewrite !count_app, Hz. unfold count; cbn. lia.
  - split.
    + rewrite !count_app, Hz. unfold count; cbn. lia.
    + eexists. rewrite <- app_assoc.
      change (?a :: ?b :: [?c]) with ([a] ++ [b; c]).
      rewrite !app_assoc. reflexivity.
Qed.

Lemma close_failure_logging_witness :
  let ws := NewWebsocket (failing errTimeout) in
  let s := fresh None [] errEOF [] None (Some errAlreadyClosed) in
  Contains (Error errAlreadyClosed) "already wrote close" = true /\
  count is_error_log (history (snd (ServeHTTP 1 ws s))) = 0.
Proof.
  cbv zeta. split; [reflexivity|].
  exact (proj1 (close_failure_logging 1 (NewWebsocket (failing errTimeout))
                  DefaultWebsocketConnParams
                  (fresh None [] errEOF [] None (Some errAlreadyClosed))
                  errTimeout errAlreadyClosed
                  (snd (serveLoop 1 (failing errTimeout) 0
                          (mkConn DefaultWebsocketConnParams)
                          (connected DefaultWebsocketConnParams
                             (fresh None [] errEOF [] None
                                (Some errAlreadyClosed)))))
                  eq_refl eq_refl eq_refl eq_refl eq_refl) eq_refl).
Defined.

(** ** The shape of the history of [ServeHTTP] *)

Lemma ServeHTTP_shape (fuel : nat) (ws : Websocket) (s : State) :
  exists pre h r post t,
    history (snd (ServeHTTP fuel ws s)) = history s ++ pre ++ h ++ post /\
    Forall (fun ev => is_lifecycle ev = true) pre /\
    Forall (fun ev => is_lifecycle ev = true) post /\
    cycles t h r.
Proof.
  destruct (accept_res s) as [ae|] eqn:Ha.
  - exists [EvAccept (Some ae);
            EvLog ErrorLevel "Failed to upgrade connection" "err" (LogErr ae)],
      [], None, [], 0%Z.
    unfold ServeHTTP, Accept, logw, bind, get, modify, ret. rewrite Ha. cbn.
    rewrite <- app_assoc. repeat split; repeat constructor.
  - destruct (connParams ws) as [prm|] eqn:Hp.
    + rewrite (ServeHTTP_connected fuel ws prm s Ha Hp).
      destruct (serveLoop fuel (rpc ws) 0 (mkConn prm) (connected prm s))
        as [r s2] eqn:HL.
      destruct (loop_exit_history fuel ws prm s r s2 HL) as (h & H1 & Cy & _).
      exists [EvAccept None; EvSetReadLimit (ReadLimit prm)], h, r.
      destruct r as [e|].
      * destruct (closeError e) as [code|] eqn:Hc.
        -- rewrite (finish_peer_close e code s2 Hc). do 2 eexists.
           split; [cbn; rewrite H1, <- app_assoc; cbn; reflexivity|].
           split; [repeat constructor|]. split; [|exact Cy].
           repeat constructor.
        -- cbn [snd]. rewrite (finish_internal e s2 Hc). do 2 eexists.
           split; [rewrite H1, <- app_assoc; cbn; reflexivity|].
           split; [repeat constructor|]. split; [|exact Cy].
           constructor; [reflexivity|]. constructor; [reflexivity|].
           destruct (close_res s2) as [ce|]; [|constructor].
           destruct (Contains (Error ce) "already wrote close");
             repeat constructor.
      * exists [], (WriteDuration prm). cbn. rewrite H1, app_nil_r.
        repeat split; [repeat constructor | constructor | exact Cy].
    + exists [EvAccept None], [], None, [], 0%Z.
      unfold ServeHTTP, Accept, newWebsocketConn, bind, get, modify, ret.
      rewrite Ha, Hp. cbn. repeat split; repeat constructor.
Qed.

Lemma count_cons (f : event -> bool) (ev : event) (h : list event) :
  count f (ev :: h) = (if f ev then 1 else 0) + count f h.
Proof. unfold count; cbn. destruct (f ev); reflexivity. Qed.

Lemma count_disjoint (f g : event -> bool) (h : list event) :
  (forall ev, f ev = true -> g ev = true -> False) ->
  Forall (fun ev => g ev = true) h -> count f h = 0.
Proof.
  intros Hfg F. induction F as [|ev h Hev F IH]; [reflexivity|].
  rewrite count_cons, IH. destruct (f ev) eqn:E; [|reflexivity].
  exfalso. eauto.
Qed.

(** *** The listener *)

Lemma notified_once_lifecycle (pre l : list event) :
  Forall (fun ev => is_lifecycle ev = true) pre ->
  notified_once (pre ++ l) = notified_once l.
Proof.
  induction 1 as [|ev pre Hev F IH]; [reflexivity|].
  destruct ev; cbn in *; try discriminate; exact IH.
Qed.

Lemma notified_once_reads (reads l : list event) :
  Forall (fun ev => is_read_event ev = true) reads ->
  notified_once (reads ++ l) = notified_once l.
Proof.
  induction 1 as [|ev reads Hev F IH]; [reflexivity|].
  destruct ev; cbn in *; try discriminate; exact IH.
Qed.

Lemma notified_once_cycles (t : Z) (h : list event) (r : option error)
    (post : list event) :
  cycles t h r ->
  Forall (fun ev => is_lifecycle ev = true) post ->
  notified_once (h ++ post) = true.
Proof.
  intros Cy P.
  assert (HP : notified_once post = true).
  { rewrite <- (app_nil_r post). now rewrite notified_once_lifecycle. }
  induction Cy as [|reads resp e F|reads resp e F|reads resp h r F C IH].
  - exact HP.
  - cbn. rewrite <- app_assoc, (notified_once_reads _ _ F). exact HP.
  - cbn. rewrite <- app_assoc, (notified_once_reads _ _ F). exact HP.
  - cbn. rewrite <- app_assoc, (notified_once_reads _ _ F). cbn.
    exact IH.
Qed.

Lemma cycles_counts (t : Z) (h : list event) (r : option error) :
  cycles t h r ->
  count is_notify h = count is_response h /\
  count is_written h <= count is_notify h <= count is_written h + 1.
Proof.
  assert (R : forall f reads,
             (forall ev, f ev = true -> is_read_event ev = true -> False) ->
             Forall (fun ev => is_read_event ev = true) reads ->
             count f reads = 0).
  { intros f reads Hf F. now apply (count_disjoint f is_read_event). }
  assert (Rn : forall ev, is_notify ev = true -> is_read_event ev = true -> False)
    by (intros []; cbn; congruence).
  assert (Rr : forall ev, is_response ev = true -> is_read_event ev = true -> False)
    by (intros []; cbn; congruence).
  assert (Rw : forall ev, is_written ev = true -> is_read_event ev = true -> False)
    by (intros []; cbn; congruence).
  induction 1 as [|reads resp e F|reads resp e F|reads resp h r F C IH];
    rewrite ?count_cons, ?count_app, ?(R _ _ Rn F), ?(R _ _ Rr F), ?(R _ _ Rw F);
    unfold count in *; cbn in *; lia.
Qed.

Lemma count_lifecycle (f : event -> bool) (l : list event) :
  (forall ev, f ev = true -> is_lifecycle ev = true -> False) ->
  Forall (fun ev => is_lifecycle ev = true) l -> count f l = 0.
Proof. intros Hf F. now apply (count_disjoint f is_lifecycle). Qed.

(** ** C3: the listener *)

(** C3, amended.  On a connection served from its start, the listener is
    called once for each request that the server handles without error,
    right after [HandleReader] returns and before the response is written,
    and it is not called for a request on which [HandleReader] fails.  The
    calls are therefore the responses written, or one more. *)
Theorem listener_called_once_per_handled_request (fuel : nat) (ws : Websocket)
    (acc : option error) (i : list (slice * option error)) (iend : error)
    (o : list (option error)) (oend cl : option error) :
  let st := snd (ServeHTTP fuel ws (fresh acc i iend o oend cl)) in
  notified_once (history st) = true /\
  notifications st = responses st /\
  written st <= notifications st <= written st + 1.
Proof.
  intros st.
  destruct (ServeHTTP_shape fuel ws (fresh acc i iend o oend cl))
    as (pre & h & r & post & t & H & Fpre & Fpost & Cy).
  fold st in H. cbn [history fresh app] in H.
  destruct (cycles_counts t h r Cy) as (Hn & Hw).
  assert (Ln : forall ev, is_notify ev = true -> is_lifecycle ev = true -> False)
    by (intros []; cbn; congruence).
  assert (Lr : forall ev, is_response ev = true -> is_lifecycle ev = true -> False)
    by (intros []; cbn; congruence).
  assert (Lw : forall ev, is_written ev = true -> is_lifecycle ev = true -> False)
    by (intros []; cbn; congruence).
  unfold notifications, responses, written. rewrite H.
  split.
  - rewrite (notified_once_lifecycle pre _ Fpre).
    exact (notified_once_cycles t h r post Cy Fpost).
  - rewrite !count_app.
    rewrite !(count_lifecycle _ pre Ln Fpre), !(count_lifecycle _ post Ln Fpost).
    rewrite !(count_lifecycle _ pre Lr Fpre), !(count_lifecycle _ post Lr Fpost).
    rewrite !(count_lifecycle _ pre Lw Fpre), !(count_lifecycle _ post Lw Fpost).
    lia.
Qed.

(** C3, as stated, fails: in a cycle whose response is not written the
    listener has been called. *)
Lemma listener_called_before_failed_write :
  let ws := NewWebsocket (constant hello) in
  let st := snd (ServeHTTP 1 ws (fresh None [] errEOF [Some errTimeout] None None)) in
  written st = 0 /\ notifications st = 1 /\
  history st =
    [EvAccept None; EvSetReadLimit (32 * 1024 * 1024);
     EvHandleReader; EvHandleReaderRet hello None;
     EvOnNewRequest "any";
     EvConnWrite (5 * Second) MessageText hello (Some errTimeout);
     EvLog WarnLevel "Closing websocket connection due to internal error"
       "err" (LogErr errTimeout);
     EvConnClose StatusInternalError
       "failed to write msg: context deadline exceeded" None].
Proof. cbv zeta. repeat split. Qed.

(** ** C9: one request at a time *)

Lemma half_duplex_lifecycle (b : bool) (pre l : list event) :
  Forall (fun ev => is_lifecycle ev = true) pre ->
  half_duplex b (pre ++ l) = half_duplex b l.
Proof.
  induction 1 as [|ev pre Hev F IH]; [reflexivity|].
  destruct ev; cbn in *; try discriminate; exact IH.
Qed.

Lemma half_duplex_reads (reads l : list event) :
  Forall (fun ev => is_read_event ev = true) reads ->
  half_duplex false (reads ++ l) = half_duplex false l.
Proof.
  induction 1 as [|ev reads Hev F IH]; [reflexivity|].
  destruct ev; cbn in *; try discriminate; exact IH.
Qed.

Lemma half_duplex_cycles (t : Z) (h : list event) (r : option error)
    (post : list event) :
  cycles t h r ->
  Forall (fun ev => is_lifecycle ev = true) post ->
  half_duplex false (h ++ post) = true.
Proof.
  intros Cy P.
  assert (HP : forall b, half_duplex b post = true).
  { intros b. rewrite <- (app_nil_r post).
    now rewrite half_duplex_lifecycle. }
  induction Cy as [|reads resp e F|reads resp e F|reads resp h r F C IH].
  - apply HP.
  - cbn. rewrite <- app_assoc, (half_duplex_reads _ _ F). cbn. apply HP.
  - cbn. rewrite <- app_assoc, (half_duplex_reads _ _ F). cbn. apply HP.
  - cbn. rewrite <- app_assoc, (half_duplex_reads _ _ F). cbn. exact IH.
Qed.

(** In a half-duplex history the responses returned and the responses
    written differ by the one that is pending. *)
Lemma half_duplex_split (h1 : list event) :
  forall (b : bool) (rest : list event),
  half_duplex b (h1 ++ rest) = true ->
  exists b',
    half_duplex b' rest = true /\
    count is_response h1 + (if b then 1 else 0)
    = count is_written h1 + (if b' then 1 else 0).
Proof.
  induction h1 as [|ev h1 IH]; intros b rest H.
  - exists b. split; [exact H | reflexivity].
  - cbn [app half_duplex] in H. rewrite !count_cons.
    destruct (is_reading ev) eqn:Erd.
    + apply andb_prop in H as [Hb H]. destruct (IH b rest H) as (b' & H1 & H2).
      exists b'. split; [exact H1|].
      destruct ev; cbn in *; try discriminate; lia.
    + destruct (is_response ev) eqn:Ers.
      * apply andb_prop in H as [Hb H].
        destruct (IH true rest H) as (b' & H1 & H2).
        exists b'. split; [exact H1|].
        destruct b; [discriminate|].
        destruct ev; cbn in *; try discriminate; lia.
      * destruct (is_write ev) eqn:Ewr.
        -- apply andb_prop in H as [Hb H]. subst b.
           destruct (IH (negb (is_written ev)) rest H) as (b' & H1 & H2).
           exists b'. split; [exact H1|].
           destruct (is_written ev); cbn in H2; lia.
        -- destruct (IH b rest H) as (b' & H1 & H2).
           exists b'. split; [exact H1|].
           destruct ev; cbn in *; try discriminate; lia.
Qed.

(** C9.  On a connection served from its start, the history is half-duplex:
    whenever a request is read (the server is called, it calls [Read], or
    [Read] fetches a message), every response that the server has returned
    so far has been written by a call of [conn.Write] that succeeded; no
    read happens while a response is pending or after a write failed. *)
Theorem requests_are_not_pipelined (fuel : nat) (ws : Websocket)
    (acc : option error) (i : list (slice * option error)) (iend : error)
    (o : list (option error)) (oend cl : option error) :
  let st := snd (ServeHTTP fuel ws (fresh acc i iend o oend cl)) in
  half_duplex false (history st) = true /\
  forall h1 ev h2,
    history st = h1 ++ ev :: h2 -> is_reading ev = true ->
    count is_response h1 = count is_written h1.
Proof.
  intros st.
  destruct (ServeHTTP_shape fuel ws (fresh acc i iend o oend cl))
    as (pre & h & r & post & t & H & Fpre & Fpost & Cy).
  fold st in H. cbn [history fresh app] in H.
  assert (HD : half_duplex false (history st) = true).
  { rewrite H, (half_duplex_lifecycle false pre _ Fpre).
    exact (half_duplex_cycles t h r post Cy Fpost). }
  split; [exact HD|].
  intros h1 ev h2 Hs Hev. rewrite Hs in HD.
  destruct (half_duplex_split h1 false (ev :: h2) HD) as (b' & H1 & H2).
  cbn [half_duplex] in H1. rewrite Hev in H1.
  apply andb_prop in H1 as [Hb _]. destruct b'; [discriminate|]. lia.
Qed.

(** ** C6: the first error ends the connection *)

Lemma cycles_first_failure (t : Z) (h : list event) (r : option error) :
  cycles t h r ->
  match r with
  | None => count is_failure h = 0
  | Some e =>
      exists h0 ev resp,
        h = h0 ++ [ev] /\
        (ev = EvHandleReaderRet resp (Some e) \/
         ev = EvConnWrite t MessageText resp (Some e)) /\
        count is_failure h0 = 0
  end.
Proof.
  assert (R : forall reads,
             Forall (fun ev => is_read_event ev = true) reads ->
             count is_failure reads = 0).
  { intros reads F. apply (count_disjoint is_failure is_read_event); [|exact F].
    intros []; cbn; congruence. }
  induction 1 as [|reads resp e F|reads resp e F|reads resp h r F C IH].
  - reflexivity.
  - exists (EvHandleReader :: reads), (EvHandleReaderRet resp (Some e)), resp.
    split; [reflexivity|]. split; [now left|].
    rewrite count_cons, (R _ F). reflexivity.
  - exists (EvHandleReader :: reads ++
              [EvHandleReaderRet resp None; EvOnNewRequest "any"]),
      (EvConnWrite t MessageText resp (Some e)), resp.
    split; [cbn; rewrite <- app_assoc; reflexivity|]. split; [now right|].
    rewrite count_cons, count_app, (R _ F). reflexivity.
  - assert (Hc : count is_failure
                   (EvHandleReader :: reads ++
                      [EvHandleReaderRet resp None; EvOnNewRequest "any";
                       EvConnWrite t MessageText resp None]) = 0).
    { rewrite count_cons, count_app, (R _ F). reflexivity. }
    destruct r as [e|].
    + destruct IH as (h0 & ev & resp' & Hh & Hev & H0).
      exists ((EvHandleReader :: reads ++
                 [EvHandleReaderRet resp None; EvOnNewRequest "any";
                  EvConnWrite t MessageText resp None]) ++ h0), ev, resp'.
      split; [rewrite Hh; cbn; rewrite <- !app_assoc; reflexivity|].
      split; [exact Hev|]. rewrite count_app, Hc, H0. reflexivity.
    + change (EvHandleReader :: reads ++
                [EvHandleReaderRet resp None; EvOnNewRequest "any";
                 EvConnWrite t MessageText resp None] ++ h)
        with (EvHandleReader :: reads ++
                ([EvHandleReaderRet resp None; EvOnNewRequest "any";
                  EvConnWrite t MessageText resp None] ++ h)).
      rewrite app_assoc.
      change (EvHandleReader :: (?a ++ ?b) ++ ?c)
        with ((EvHandleReader :: a ++ b) ++ c).
      rewrite count_app, Hc, IH. reflexivity.
Qed.

















(** ** C7: the connection parameters *)

Lemma default_params_positive : params_positive DefaultWebsocketConnParams.
Proof. split; reflexivity. Qed.

(** C7.  [NewWebsocket] installs the defaults, 32 MiB and 5 seconds, which
    are positive; [WithConnParams] installs whatever it is given, without a
    check: with a read limit and a write duration of zero the connection is
    served with these values, and with a nil pointer serving panics. *)
Theorem WithConnParams_does_not_check :
  let ws := NewWebsocket (constant hello) in
  let s := fresh None [] errEOF [] None None in
  connParams ws = Some (mkParams 33554432 5000000000) /\
  params_positive DefaultWebsocketConnParams /\
  (forall p, connParams (WithConnParams ws p) = p) /\
  ~ params_positive (mkParams 0 0) /\
  history (snd (ServeHTTP 1 (WithConnParams ws (Some (mkParams 0 0))) s)) =
    [EvAccept None; EvSetReadLimit 0; EvHandleReader;
     EvHandleReaderRet hello None; EvOnNewRequest "any";
     EvConnWrite 0 MessageText hello None] /\
  fst (ServeHTTP 1 (WithConnParams ws None) s) = Panicked.
Proof.
  cbv zeta. split; [reflexivity|]. split; [exact default_params_positive|].
  split; [reflexivity|]. split; [|split; reflexivity].
  intros [H _]. cbn in H. lia.
Qed.

(** * Further properties of the adapter *)

Lemma remainder_nil_or_bytes (p : bytes) (m : slice) :
  remainder p m = None \/ 0 < len (remainder p m).
Proof.
  unfold remainder. destruct (List.length p <? len m) eqn:E; [|now left].
  right. apply Nat.ltb_lt in E. destruct m as [b|]; unfold len in *; cbn in *.
  - rewrite length_skipn. lia.
  - lia.
Qed.

(** After a call of [Read] that succeeds the buffer is nil exactly when it
    holds no byte: an empty slice that is not nil is never left behind, so
    the test [wsc.buf == nil] of the next call decides whether bytes are
    pending. *)
Theorem Read_buffer_nil_iff_empty (p : bytes) (s : State) n p' s' :
  Read p s = ((n, None, p'), s') ->
  (buf s' = None <-> len (buf s') = 0).
Proof.
  intros H.
  assert (R : buf s' = None \/ 0 < len (buf s')).
  { destruct (buf s) as [b|] eqn:Hb.
    - rewrite (Read_buffered p b s Hb) in H. inversion H; subst.
      apply remainder_nil_or_bytes.
    - destruct (inbox s) as [|[m [e|]] rest] eqn:Hi.
      + rewrite (Read_dead p s Hb Hi) in H. discriminate H.
      + rewrite (Read_fetch_error p m e rest s Hb Hi) in H. discriminate H.
      + rewrite (Read_fetch p m rest s Hb Hi) in H. inversion H; subst.
        apply remainder_nil_or_bytes. }
  split.
  - intros E. now rewrite E.
  - intros E. destruct R as [R|R]; [exact R | lia].
Qed.

Lemma Read_buffer_nil_iff_empty_witness :
  let s := fresh None [delivers (Some hello)] errEOF [] None None in
  Read [x00; x00; x00; x00; x00; x00] s
    = ((5, None, hello ++ [x00]), snd (Read [x00; x00; x00; x00; x00; x00] s)) /\
  (buf (snd (Read [x00; x00; x00; x00; x00; x00] s)) = None <->
   len (buf (snd (Read [x00; x00; x00; x00; x00; x00] s))) = 0).
Proof.
  intros s.
  assert (H : Read [x00; x00; x00; x00; x00; x00] s
              = ((5, None, hello ++ [x00]),
                 snd (Read [x00; x00; x00; x00; x00; x00] s)))
    by reflexivity.
  split; [exact H|].
  exact (Read_buffer_nil_iff_empty _ s 5 (hello ++ [x00]) _ H).
Defined.

(** When [conn.Read] returns data together with an error, [Read] returns the
    length of that data as its count, which may exceed the length of [p],
    copies nothing into [p] and keeps the data: the next call of [Read]
    hands it out without a call of [conn.Read]. *)
Theorem Read_error_keeps_data (p q d : bytes) (e : error)
    (rest : list (slice * option error)) (s : State) :
  buf s = None -> inbox s = (Some d, Some e) :: rest ->
  fst (Read p s) = (List.length d, Some e, p) /\
  fst (Read q (snd (Read p s)))
    = (Nat.min (List.length q) (List.length d), None,
       firstn (Nat.min (List.length q) (List.length d)) d
         ++ skipn (Nat.min (List.length q) (List.length d)) q) /\
  history (snd (Read q (snd (Read p s)))) = history (snd (Read p s)) /\
  inbox (snd (Read q (snd (Read p s)))) = rest.
Proof.
  intros Hb Hi. rewrite (Read_fetch_error p (Some d) e rest s Hb Hi).
  cbn [fst snd]. split; [reflexivity|].
  rewrite (Read_buffered q d
             (set_buf (Some d)
                (record (EvConnRead (Some d) (Some e)) (set_inbox rest s)))
             eq_refl).
  cbn [fst snd]. repeat split.
Qed.

Lemma Read_error_keeps_data_witness :
  let s := fresh None [(Some partial_data, Some errClosed)] errEOF [] None None in
  (buf s = None /\ inbox s = (Some partial_data, Some errClosed) :: []) /\
  fst (Read [] s) = (3, Some errClosed, []) /\
  fst (Read hello (snd (Read [] s)))
    = (3, None, [x7b; x22; x69; x6c; x6f]).
Proof.
  intros s. split; [split; reflexivity|].
  destruct (Read_error_keeps_data [] hello partial_data errClosed [] s
              eq_refl eq_refl) as (H1 & H2 & _).
  split; [exact H1 | exact H2].
Defined.

(** A call of [Read] with a buffer of length zero, while bytes are
    buffered, returns (0, nil) and changes nothing; so does any number of
    such calls: a caller with an empty buffer makes no progress and sees no
    error. *)
Theorem Read_into_empty_buffer (k : nat) (b : bytes) (s : State) :
  buf s = Some b -> 0 < List.length b ->
  Read [] s = ((0, None, []), s) /\
  readAll (repeat [] k) s = ((repeat [] k, None), s).
Proof.
  intros Hb Hl.
  assert (H : Read [] s = ((0, None, []), s)).
  { rewrite (Read_buffered [] b s Hb). unfold remainder, copy, len. cbn.
    replace (0 <? List.length b) with true
      by (symmetry; now apply Nat.ltb_lt).
    destruct s; cbn in *; subst. reflexivity. }
  split; [exact H|].
  induction k as [|k IH]; [reflexivity|].
  cbn [repeat]. rewrite readAll_cons, H, IH. reflexivity.
Qed.

Lemma Read_into_empty_buffer_witness :
  let s := set_buf (Some hello) (fresh None [] errEOF [] None None) in
  (buf s = Some hello /\ 0 < List.length hello) /\
  readAll (repeat [] 4) s = ((repeat [] 4, None), s).
Proof.
  intros s.
  assert (Hl : 0 < List.length hello) by (cbn; lia).
  split; [split; [reflexivity | exact Hl]|].
  exact (proj2 (Read_into_empty_buffer 4 hello s eq_refl Hl)).
Defined.

(** When nothing is buffered and the caller's buffer is as long as the next
    message, one call of [Read] hands out the whole message and leaves the
    buffer nil: with buffers that are large enough, calls of [Read] and
    messages correspond one to one. *)
Theorem Read_whole_message (p : bytes) (m : slice)
    (rest : list (slice * option error)) (s : State) :
  buf s = None -> inbox s = (m, None) :: rest -> len m <= List.length p ->
  fst (Read p s) = (len m, None, content m ++ skipn (len m) p) /\
  buf (snd (Read p s)) = None /\
  inbox (snd (Read p s)) = rest /\
  fetches (snd (Read p s)) = fetches s + 1.
Proof.
  intros Hb Hi Hl. rewrite (Read_fetch p m rest s Hb Hi). cbn [fst snd].
  unfold copy, remainder, fetches. fold (len m). cbn [fst snd].
  rewrite Nat.min_r by exact Hl.
  replace (List.length p <? len m) with false
    by (symmetry; apply Nat.ltb_ge; exact Hl).
  unfold len. rewrite firstn_all. cbn. rewrite count_app.
  repeat split.
Qed.

Lemma Read_whole_message_witness :
  let s := fresh None [delivers (Some hello); delivers (Some partial_data)]
             errEOF [] None None in
  (buf s = None /\ len (Some hello) <= List.length (repeat x00 8)) /\
  fst (Read (repeat x00 8) s) = (5, None, hello ++ [x00; x00; x00]) /\
  buf (snd (Read (repeat x00 8) s)) = None.
Proof.
  intros s.
  assert (Hl : len (Some hello) <= List.length (repeat x00 8)) by (cbn; lia).
  split; [split; [reflexivity | exact Hl]|].
  destruct (Read_whole_message (repeat x00 8) (Some hello)
              [delivers (Some partial_data)] s eq_refl eq_refl Hl)
    as (H1 & H2 & _).
  split; [exact H1 | exact H2].
Defined.

(** [Read] keeps the length of the caller's buffer; when it succeeds the
    count is at most that length and the bytes after the count are as they
    were; when it fails the buffer is as it was. *)
Theorem Read_writes_a_prefix (p : bytes) (s : State) n err p' s' :
  Read p s = ((n, err, p'), s') ->
  List.length p' = List.length p /\
  match err with
  | None => n <= List.length p /\ skipn n p' = skipn n p
  | Some _ => p' = p
  end.
Proof.
  assert (C : forall b : bytes,
             List.length (snd (copy p b)) = List.length p /\
             fst (copy p b) <= List.length p /\
             skipn (fst (copy p b)) (snd (copy p b)) = skipn (fst (copy p b)) p).
  { intros b. unfold copy. cbn [fst snd].
    set (k := Nat.min (List.length p) (List.length b)).
    assert (Hk : List.length (firstn k b) = k)
      by (rewrite length_firstn; unfold k; lia).
    split; [|split].
    - rewrite length_app, Hk, length_skipn. unfold k. lia.
    - unfold k. lia.
    - rewrite skipn_app, Hk, Nat.sub_diag. cbn [skipn].
      rewrite <- Hk at 1. now rewrite skipn_all. }
  intros H. destruct (buf s) as [b|] eqn:Hb.
  - rewrite (Read_buffered p b s Hb) in H.
    injection H as <- <- <- <-. destruct (C b) as (C1 & C2 & C3). auto.
  - destruct (inbox s) as [|[m [e|]] rest] eqn:Hi.
    + rewrite (Read_dead p s Hb Hi) in H. injection H as <- <- <- <-. auto.
    + rewrite (Read_fetch_error p m e rest s Hb Hi) in H.
      injection H as <- <- <- <-. auto.
    + rewrite (Read_fetch p m rest s Hb Hi) in H.
      injection H as <- <- <- <-. destruct (C (content m)) as (C1 & C2 & C3).
      auto.
Qed.

Lemma Read_writes_a_prefix_witness :
  let s := fresh None [delivers (Some partial_data)] errEOF [] None None in
  Read hello s = ((3, None, [x7b; x22; x69; x6c; x6f]), snd (Read hello s)) /\
  List.length [x7b; x22; x69; x6c; x6f] = List.length hello.
Proof.
  intros s.
  assert (H : Read hello s
              = ((3, None, [x7b; x22; x69; x6c; x6f]), snd (Read hello s)))
    by reflexivity.
  split; [exact H|].
  exact (proj1 (Read_writes_a_prefix hello s 3 None _ _ H)).
Defined.

(** * Further properties of the connection lifecycle *)

(** ** The upgrade fails *)

(** When [websocket.Accept] fails, [ServeHTTP] logs the failure at error
    level and returns, whatever the parameters (a nil pointer included) and
    the fuel: the read limit is not set, the server is not called, nothing
    is read, written or closed, and the adapter is not touched. *)
Theorem upgrade_failure_is_only_logged (fuel : nat) (ws : Websocket)
    (s : State) (e : error) :
  accept_res s = Some e ->
  fst (ServeHTTP fuel ws s) = Returned /\
  history (snd (ServeHTTP fuel ws s)) =
    history s ++
      [EvAccept (Some e);
       EvLog ErrorLevel "Failed to upgrade connection" "err" (LogErr e)] /\
  buf (snd (ServeHTTP fuel ws s)) = buf s /\
  inbox (snd (ServeHTTP fuel ws s)) = inbox s /\
  outbox_res (snd (ServeHTTP fuel ws s)) = outbox_res s.
Proof.
  intros Ha. unfold ServeHTTP, Accept, logw, bind, get, modify, ret.
  rewrite Ha. cbn. rewrite <- app_assoc. repeat split.
Qed.

Lemma upgrade_failure_is_only_logged_witness :
  let s := fresh (Some errClosed) [delivers (Some hello)] errEOF [] None None in
  accept_res s = Some errClosed /\
  fst (ServeHTTP 7 (WithConnParams (NewWebsocket echo) None) s) = Returned /\
  inbox (snd (ServeHTTP 7 (WithConnParams (NewWebsocket echo) None) s))
    = [delivers (Some hello)].
Proof.
  intros s. split; [reflexivity|].
  destruct (upgrade_failure_is_only_logged 7
              (WithConnParams (NewWebsocket echo) None) s errClosed eq_refl)
    as (H1 & _ & _ & H4 & _).
  split; [exact H1 | exact H4].
Defined.

(** ** The parameters in use *)

Lemma cycles_configured (t : Z) (h : list event) (r : option error) :
  cycles t h r -> Forall (configured t) h.
Proof.
  assert (R : forall reads, Forall (fun ev => is_read_event ev = true) reads ->
                Forall (configured t) reads).
  { intros reads F. eapply Forall_impl; [|exact F].
    intros [] E; cbn in *; try exact I; discriminate. }
  induction 1 as [|reads resp e F|reads resp e F|reads resp h r F C IH].
  - constructor.
  - constructor; [exact I|]. apply Forall_app; split; [now apply R|].
    repeat constructor.
  - constructor; [exact I|]. apply Forall_app; split; [now apply R|].
    repeat constructor.
  - constructor; [exact I|]. apply Forall_app; split; [now apply R|].
    cbn. repeat (constructor; [cbn; auto|]). exact IH.
Qed.

Lemma finish_teardown (e : error) (s : State) :
  exists post,
    history (snd (finish e s)) = history s ++ post /\
    Forall (fun ev => is_teardown ev = true) post.
Proof.
  destruct (closeError e) as [code|] eqn:Hc.
  - rewrite (finish_peer_close e code s Hc). eexists. split; [reflexivity|].
    repeat constructor.
  - rewrite (finish_internal e s Hc). eexists. split; [reflexivity|].
    constructor; [reflexivity|]. constructor; [reflexivity|].
    destruct (close_res s) as [ce|]; [|constructor].
    destruct (Contains (Error ce) "already wrote close"); repeat constructor.
Qed.

Lemma ServeHTTP_connected_shape (fuel : nat) (ws : Websocket)
    (prm : WebsocketConnParams) (s : State) :
  accept_res s = None -> connParams ws = Some prm ->
  exists h r post,
    history (snd (ServeHTTP fuel ws s)) =
      history s ++ EvAccept None :: EvSetReadLimit (ReadLimit prm) :: h ++ post /\
    cycles (WriteDuration prm) h r /\
    Forall (fun ev => is_teardown ev = true) post.
Proof.
  intros Ha Hp. rewrite (ServeHTTP_connected fuel ws prm s Ha Hp).
  destruct (serveLoop fuel (rpc ws) 0 (mkConn prm) (connected prm s))
    as [r s2] eqn:HL.
  destruct (loop_exit_history fuel ws prm s r s2 HL) as (h & H1 & Cy & _).
  exists h, r. destruct r as [e|].
  - cbn [snd]. destruct (finish_teardown e s2) as (post & H2 & F).
    exists post. rewrite H2, H1, <- app_assoc. cbn. auto.
  - exists []. cbn [snd]. rewrite H1, app_nil_r. auto.
Qed.

(** On a connection that is accepted, the read limit of the parameters is
    set on the transport once, before anything else is done, and every call
    of [conn.Write] of the connection is made with the write duration of the
    parameters as its timeout and with the type text. *)
Theorem parameters_reach_the_transport (fuel : nat) (ws : Websocket)
    (prm : WebsocketConnParams) (s : State) :
  accept_res s = None -> connParams ws = Some prm ->
  exists h,
    history (snd (ServeHTTP fuel ws s)) =
      history s ++ EvAccept None :: EvSetReadLimit (ReadLimit prm) :: h /\
    Forall (configured (WriteDuration prm)) h.
Proof.
  intros Ha Hp.
  destruct (ServeHTTP_connected_shape fuel ws prm s Ha Hp)
    as (h & r & post & H & Cy & F).
  exists (h ++ post). split; [exact H|].
  apply Forall_app. split; [exact (cycles_configured _ _ _ Cy)|].
  eapply Forall_impl; [|exact F].
  intros [] E; cbn in *; try exact I; discriminate.
Qed.

Lemma parameters_reach_the_transport_witness :
  let ws := WithConnParams (NewWebsocket (constant hello)) (Some slow_params) in
  let s := fresh None [] errEOF [None; Some errTimeout] None None in
  (accept_res s = None /\ connParams ws = Some slow_params) /\
  exists h,
    history (snd (ServeHTTP 9 ws s)) =
      EvAccept None :: EvSetReadLimit 4096 :: h /\
    Forall (configured 30000000000) h.
Proof.
  intros ws s. split; [split; reflexivity|].
  exact (parameters_reach_the_transport 9 ws slow_params s eq_refl eq_refl).
Defined.

(** ** The responses on the wire *)

Lemma returned_app (h1 h2 : list event) :
  returned (h1 ++ h2) = returned h1 ++ returned h2.
Proof.
  induction h1 as [|ev h1 IH]; [reflexivity|].
  destruct ev; cbn; try exact IH.
  destruct err; [exact IH|]. cbn. now rewrite IH.
Qed.

Lemma returned_none (l : list event) :
  Forall (fun ev => is_response ev = false) l -> returned l = [].
Proof.
  induction 1 as [|ev l Hev F IH]; [reflexivity|].
  destruct ev; cbn in *; try exact IH.
  destruct err; [exact IH | discriminate].
Qed.

Lemma sent_none (l : list event) :
  Forall (fun ev => is_written ev = false) l -> sent l = [].
Proof.
  induction 1 as [|ev l Hev F IH]; [reflexivity|].
  destruct ev; cbn in *; try exact IH.
  destruct err; [exact IH | discriminate].
Qed.

Lemma reads_silent (reads : list event) :
  Forall (fun ev => is_read_event ev = true) reads ->
  returned reads = [] /\ sent reads = [].
Proof.
  intros F. split; [apply returned_none | apply sent_none];
    (eapply Forall_impl; [|exact F]); intros [] E; cbn in *;
    try reflexivity; discriminate.
Qed.

Lemma lifecycle_silent (l : list event) :
  Forall (fun ev => is_lifecycle ev = true) l ->
  returned l = [] /\ sent l = [].
Proof.
  intros F. split; [apply returned_none | apply sent_none];
    (eapply Forall_impl; [|exact F]); intros [] E; cbn in *;
    try reflexivity; discriminate.
Qed.

Lemma cycles_responses (t : Z) (h : list event) (r : option error) :
  cycles t h r ->
  exists pending,
    map (pair MessageText) (returned h) = sent h ++ pending /\
    List.length pending <= 1 /\
    (r = None -> pending = []).
Proof.
  induction 1 as [|reads resp e F|reads resp e F|reads resp h r F C IH].
  - exists []. auto.
  - exists []. destruct (reads_silent reads F) as [R S].
    cbn. rewrite returned_app, sent_app, R, S. cbn.
    repeat split; try lia; try discriminate.
  - exists [(MessageText, resp)]. destruct (reads_silent reads F) as [R S].
    cbn. rewrite returned_app, sent_app, R, S. cbn.
    repeat split; try lia; try discriminate.
  - destruct IH as (pending & H1 & H2 & H3).
    exists pending. destruct (reads_silent reads F) as [R S].
    cbn. rewrite returned_app, sent_app, R, S. cbn.
    rewrite H1. auto.
Qed.

(** On a connection served from its start, the messages on the wire are
    the responses that the server returned, each one whole, as it was
    returned, in the order of the requests; the only response that may be
    missing is the last one, when its write failed. *)
Theorem responses_are_sent_in_order (fuel : nat) (ws : Websocket)
    (acc : option error) (i : list (slice * option error)) (iend : error)
    (o : list (option error)) (oend cl : option error) :
  let st := snd (ServeHTTP fuel ws (fresh acc i iend o oend cl)) in
  exists pending,
    map (pair MessageText) (returned (history st))
      = sent (history st) ++ pending /\
    List.length pending <= 1 /\
    (fst (ServeHTTP fuel ws (fresh acc i iend o oend cl)) = Running ->
     pending = []).
Proof.
  intros st.
  destruct acc as [ae|].
  - exists []. cbn. repeat split; try lia; discriminate.
  - destruct (connParams ws) as [prm|] eqn:Hp.
    + pose proof (ServeHTTP_connected fuel ws prm
                    (fresh None i iend o oend cl) eq_refl Hp) as HS.
      unfold st. rewrite HS.
      destruct (serveLoop fuel (rpc ws) 0 (mkConn prm)
                  (connected prm (fresh None i iend o oend cl)))
        as [r s2] eqn:HL.
      destruct (loop_exit_history fuel ws prm _ r s2 HL) as (h & H1 & Cy & _).
      destruct (cycles_responses _ _ _ Cy) as (pending & P1 & P2 & P3).
      cbn [history fresh app] in H1.
      exists pending. destruct r as [e|]; cbn [fst snd].
      * destruct (finish_teardown e s2) as (post & H2 & F).
        assert (L : Forall (fun ev => is_lifecycle ev = true) post).
        { eapply Forall_impl; [|exact F].
          intros [] E; cbn in *; try reflexivity; discriminate. }
        destruct (lifecycle_silent post L) as [R S].
        rewrite H2, H1. cbn. rewrite returned_app, sent_app, R, S, !app_nil_r.
        split; [exact P1|]. split; [exact P2 | discriminate].
      * rewrite H1. cbn. split; [exact P1|]. split; [exact P2 | auto].
    + exists []. unfold st, ServeHTTP, Accept, newWebsocketConn, bind, get,
        modify, ret. rewrite Hp. cbn. repeat split; try lia; try discriminate.
Qed.

(** ** The close frame *)

(** Whatever happens on a connection, [ServeHTTP] sends at most one close
    frame; when it does, the status is internal error and the reason has at
    most 125 bytes, the most that a close frame can carry. *)
Theorem at_most_one_close_frame (fuel : nat) (ws : Websocket) (s : State) :
  close_reasons (history (snd (ServeHTTP fuel ws s))) = close_reasons (history s) \/
  exists reason,
    close_reasons (history (snd (ServeHTTP fuel ws s)))
      = close_reasons (history s) ++ [(StatusInternalError, reason)] /\
    String.length reason <= closeReasonMaxBytes.
Proof.
  destruct (accept_res s) as [ae|] eqn:Ha.
  - left. unfold ServeHTTP, Accept, logw, bind, get, modify, ret.
    rewrite Ha. cbn. rewrite !close_reasons_app. cbn. now rewrite !app_nil_r.
  - destruct (connParams ws) as [prm|] eqn:Hp.
    + rewrite (ServeHTTP_connected fuel ws prm s Ha Hp).
      destruct (serveLoop fuel (rpc ws) 0 (mkConn prm) (connected prm s))
        as [r s2] eqn:HL.
      destruct (loop_exit_history fuel ws prm s r s2 HL) as (h & H1 & Cy & _).
      pose proof (close_reasons_none h (cycles_not_lifecycle _ _ _ Cy)) as NL.
      assert (H2 : close_reasons (history s2) = close_reasons (history s)).
      { rewrite H1, close_reasons_app. cbn. rewrite NL. apply app_nil_r. }
      destruct r as [e|]; [|left; exact H2].
      cbn [snd]. destruct (closeError e) as [code|] eqn:Hc.
      * left. rewrite (finish_peer_close e code s2 Hc). cbn.
        rewrite close_reasons_app, H2. cbn. apply app_nil_r.
      * right. exists (closeReason (Error e)).
        rewrite (finish_internal e s2 Hc), close_reasons_app, H2.
        split.
        -- cbn. destruct (close_res s2) as [ce|]; [|reflexivity].
           destruct (Contains (Error ce) "already wrote close"); reflexivity.
        -- rewrite closeReason_length. lia.
    + left. unfold ServeHTTP, Accept, newWebsocketConn, bind, get, modify, ret.
      rewrite Ha, Hp. cbn. rewrite close_reasons_app. cbn. apply app_nil_r.
Qed.

(** ** The close failure that is not logged *)

Lemma prefix_iff (sub : string) :
  forall s : string, prefix sub s = true <-> exists b, s = (sub ++ b)%string.
Proof.
  induction sub as [|c sub IH]; intros s.
  - split; [intros _; now exists s | intros _; destruct s; reflexivity].
  - destruct s as [|c' s]; cbn.
    + split; [discriminate | intros [b H]; discriminate H].
    + destruct (ascii_dec c c') as [->|N].
      * rewrite IH. split; intros [b H]; exists b; congruence.
      * split; [discriminate | intros [b H]; congruence].
Qed.

Lemma Contains_eq (s sub : string) :
  Contains s sub =
  if prefix sub s then true
  else match s with
       | EmptyString => false
       | String _ s' => Contains s' sub
       end.
Proof. destruct s; reflexivity. Qed.

Lemma Contains_iff (sub : string) :
  forall s : string,
  Contains s sub = true <-> exists a b, s = (a ++ sub ++ b)%string.
Proof.
  induction s as [|c s IH]; rewrite Contains_eq.
  - destruct (prefix sub "") eqn:P.
    + split; [intros _ | intros _; reflexivity].
      apply prefix_iff in P as [b P]. now exists ""%string, b.
    + split; [discriminate|]. intros (a & b & H).
      destruct a; cbn in H.
      * assert (P' : prefix sub "" = true) by (apply prefix_iff; now exists b).
        congruence.
      * discriminate H.
  - destruct (prefix sub (String c s)) eqn:P.
    + split; [intros _ | intros _; reflexivity].
      apply prefix_iff in P as [b P]. now exists ""%string, b.
    + rewrite IH. split.
      * intros (a & b & H). exists (String c a), b. cbn. now rewrite H.
      * intros (a & b & H). destruct a as [|c' a]; cbn in H.
        -- assert (P' : prefix sub (String c s) = true)
             by (apply prefix_iff; now exists b).
           congruence.
        -- exists a, b. congruence.
Qed.

(** On the internal-error path, when [conn.Close] fails, the failure is
    left out of the log exactly when the message of its error holds
    "already wrote close" somewhere, at the start, in the middle or at the
    end; every other failure of [conn.Close] is logged at error level. *)
Theorem close_failure_is_silent_iff (e ce : error) (s : State) :
  closeError e = None -> close_res s = Some ce ->
  (count is_error_log (history (snd (finish e s))) = count is_error_log (history s)
   <-> exists a b, Error ce = (a ++ "already wrote close" ++ b)%string) /\
  (count is_error_log (history (snd (finish e s)))
     = count is_error_log (history s) + 1
   <-> ~ exists a b, Error ce = (a ++ "already wrote close" ++ b)%string).
Proof.
  intros Hc Hce. rewrite (finish_internal e s Hc), Hce.
  rewrite <- (Contains_iff "already wrote close" (Error ce)).
  destruct (Contains (Error ce) "already wrote close");
    rewrite !count_app, !count_cons; unfold count; cbn; split; split;
    intros H; try reflexivity; try lia; try congruence.
Qed.

Lemma close_failure_is_silent_iff_witness :
  let s := fresh None [] errEOF [] None (Some errAlreadyClosed) in
  (closeError errTimeout = None /\ close_res s = Some errAlreadyClosed) /\
  count is_error_log (history (snd (finish errTimeout s))) = 0.
Proof.
  intros s. split; [split; reflexivity|].
  apply (proj1 (close_failure_is_silent_iff errTimeout errAlreadyClosed s
                  eq_refl eq_refl)).
  exists "failed to close WebSocket: "%string, ""%string. reflexivity.
Defined.

(** ** The close reason of a message of one-byte characters *)

Lemma utf8_valid_ascii (l : list nat) :
  Forall (fun b => b < 128) l -> utf8_valid l = true.
Proof.
  induction 1 as [|b l Hb F IH]; [reflexivity|].
  cbn [utf8_valid].
  replace (b <? 128) with true by (symmetry; now apply Nat.ltb_lt).
  exact IH.
Qed.

Lemma substring_chars (P : ascii -> Prop) (n : nat) :
  forall s : string,
  Forall P (list_ascii_of_string s) ->
  Forall P (list_ascii_of_string (substring 0 n s)).
Proof.
  induction n as [|n IH]; intros [|c s] F; cbn; try constructor.
  - now inversion F.
  - apply IH. now inversion F.
Qed.

(** The cut at 125 bytes cannot split a character when every character of
    the message is one byte long: the close reason of a message of bytes
    below 128 is made of such bytes, and it is well-formed UTF-8. *)
Theorem close_reason_of_ascii_message (m : string) :
  ascii_only m ->
  ascii_only (closeReason m) /\ valid_utf8 (closeReason m) = true.
Proof.
  intros H.
  assert (A : ascii_only (closeReason m)).
  { unfold closeReason.
    destruct (closeReasonMaxBytes <? String.length m); [|exact H].
    now apply substring_chars. }
  split; [exact A|].
  unfold valid_utf8. apply utf8_valid_ascii.
  apply Forall_map. exact A.
Qed.

Lemma close_reason_of_ascii_message_witness :
  ascii_only (repeat_byte "x" 300) /\
  valid_utf8 (closeReason (repeat_byte "x" 300)) = true.
Proof.
  assert (H : ascii_only (repeat_byte "x" 300)).
  { unfold ascii_only.
    assert (G : forall n, Forall (fun c => nat_of_ascii c < 128)
                            (list_ascii_of_string (repeat_byte "x" n))).
    { induction n as [|n IH]; cbn [repeat_byte list_ascii_of_string];
        constructor; [cbn; lia | exact IH]. }
    apply G. }
  split; [exact H|].
  exact (proj2 (close_reason_of_ascii_message (repeat_byte "x" 300) H)).
Defined.

(** ** The only way out of the loop *)

(** On a connection that is accepted, [ServeHTTP] returns after one failure
    exactly, of [HandleReader] or of [Write], and as long as none has
    happened it is still in its loop: nothing but an error ends a
    connection, and no failure is followed by another attempt. *)
Theorem connection_ends_on_one_failure (fuel : nat) (ws : Websocket)
    (prm : WebsocketConnParams) (s : State) :
  accept_res s = None -> connParams ws = Some prm ->
  exists h,
    history (snd (ServeHTTP fuel ws s)) = history s ++ h /\
    ((fst (ServeHTTP fuel ws s) = Running /\ count is_failure h = 0) \/
     (fst (ServeHTTP fuel ws s) = Returned /\ count is_failure h = 1)).
Proof.
  intros Ha Hp. rewrite (ServeHTTP_connected fuel ws prm s Ha Hp).
  destruct (serveLoop fuel (rpc ws) 0 (mkConn prm) (connected prm s))
    as [r s2] eqn:HL.
  destruct (loop_exit_history fuel ws prm s r s2 HL) as (h & H1 & Cy & _).
  pose proof (cycles_first_failure _ _ _ Cy) as HF.
  destruct r as [e|]; cbn [fst snd].
  - destruct HF as (h0 & ev & resp & Hh & Hev & H0).
    destruct (finish_teardown e s2) as (post & H2 & F).
    exists (EvAccept None :: EvSetReadLimit (ReadLimit prm) :: h ++ post).
    split; [rewrite H2, H1, <- app_assoc; reflexivity|].
    right. split; [reflexivity|].
    assert (P : count is_failure post = 0).
    { apply (count_disjoint is_failure is_teardown); [|exact F].
      intros []; cbn; congruence. }
    rewrite !count_cons, count_app, P, Hh, count_app, H0.
    destruct Hev as [-> | ->]; reflexivity.
  - exists (EvAccept None :: EvSetReadLimit (ReadLimit prm) :: h).
    split; [exact H1|]. left. split; [reflexivity|].
    rewrite !count_cons, HF. reflexivity.
Qed.

Lemma connection_ends_on_one_failure_witness :
  let ws := NewWebsocket echo in
  let s := fresh None [delivers (Some hello)] errEOF [] None None in
  (accept_res s = None /\ connParams ws = Some DefaultWebsocketConnParams) /\
  exists h,
    history (snd (ServeHTTP 4 ws s)) = history s ++ h /\
    ((fst (ServeHTTP 4 ws s) = Running /\ count is_failure h = 0) \/
     (fst (ServeHTTP 4 ws s) = Returned /\ count is_failure h = 1)).
Proof.
  intros ws s. split; [split; reflexivity|].
  exact (connection_ends_on_one_failure 4 ws DefaultWebsocketConnParams s
           eq_refl eq_refl).
Defined.
